(* ===== verification/_CoqProject ===== *)
-Q . S2P
Prelude.v
CType.v
Stdio.v
Parser.v
Reader.v
Differ.v
Loader.v
Main.v
