(* ===== verification/Prelude.v ===== *)
(** * diffkv in Rocq: the development

    The program (src/diffkv.c, one C file) compares two [key=value]
    files.  [main] checks its arguments, opens each file with
    [file_from_arg], loads it into a NULL-terminated array of [struct kv]
    pointers with [kvs_from_file], and hands both arrays to [diff], which
    prints one line per difference.  [kvs_from_file] drives the reader:
    [getnonwsln] calls [getln] (one line of the stream, [NULL] for an empty
    line or the end of input) and [getlntype] (empty / whitespace /
    comment / text), and splits each text line in place into a key and a
    value with pointer scans over the line buffer.  [diff] looks each key of
    the first array up in the second with [kvs_find_key] and overwrites the
    slots it has used with the sentinel [KV_IGNORE].

    ** Files, in dependency order
    - [Prelude] (this file):
      - the state-and-error monad [St]: every effectful function of the
        program is written in it, with its notation in [diffkv_scope];
      - the loop combinator [scan]: the C idiom [while (p( *c)) c++] over a
        buffer, [None] when the loop would read past the end of the buffer;
        [take_while] and [drop_while] with their lemmas;
      - footprints of computations: [preserves] (an observation of the
        state is unchanged), [exit_quiet] (unchanged when the computation
        exits), [never] (an outcome never happens);
      - total-correctness triples [total] with their bind rule;
      - the hint databases [diffkv] and [diffkv_rw], and the tactics
        ([footprint] composes footprints through binds and matches).
    - [CType]: the C library's character and string functions on byte
      lists: [isspace] (the "C" locale), C strings in a buffer ([cstr]),
      [strchr], [strcmp].
    - [Stdio]: the environment, i.e. the C library's stdio as the program
      uses it.  A [FILE] is its unread bytes, a pending read error, and the
      end-of-file and error indicators.  The [world] holds the table of
      open streams (stdin is stream 0), the files [fopen] can open, and the
      lines written to stdout and stderr.  [fgetc], [feof], [ferror],
      [fopen] and [perror] are monadic operations on it.  The class
      [ReadInvariant] names what reading and writing on stderr leave
      unchanged.
    - [Parser]: the key/value split of one text line, lines 108-144 of
      [kvs_from_file], as [kv_parse], [kv_cut] and [kv_value].  They do
      index arithmetic on the line buffer, with the in-place NUL writes.
      [kv_spec] is a list-level reference parser.
    - [Reader]: [getln] (21-47), [getlntype] (49-64), [getnonwsln]
      (66-83); streams as lists of lines ([after], [join], [lines_of]).
    - [Differ]: [kvs_find_key] (172-182) and [diff] (184-208), with an
      array as [option (list slot)] ([None] is a NULL array, a [slot] is an
      entry or [KV_IGNORE]); [diff_spec], the specification's comparison,
      and its printing [emit].
    - [Loader]: [kvs_from_file] (85-153) as [kvs_loop] and
      [kvs_from_file], [file_from_arg] (155-170); [load_text], what the
      specification says a file of lines loads to.
    - [Main]: [main] (210-235), with [diff]'s output in the program's
      stdout ([run_diff_in]).

    ** Outcomes
    A computation ends with [Ok] (a return), [Exit c] ([exit(c)] or the
    status [main] returns), [Crash f] (undefined behaviour the code reaches:
    a NULL dereference, a read past an object, a dereference of
    [KV_IGNORE]), or [NoFuel] (a loop ran out of fuel, which the
    termination theorems exclude).  Output is recorded line by line as
    [printf]/[fprintf] issue it; the buffering of stdout, which may lose
    lines already printed when the program then crashes, is not modelled.

    ** What is proved (claims C1-C26, by file)
    - Main: the end-to-end run on two files that load is [diff] on the
      loaded arrays (C1); a run that exits never printed on stdout (C8);
      [main] terminates (C9); argument-count errors and the read past
      [argv] when [argc] is 0 (C23); ["-"] twice crashes (C24); the
      first file is loaded before the second is opened, so its errors
      come first (C26).
    - Differ: [diff] refines [diff_spec] on non-empty arrays (C2): it prints
      the specification's lines, but crashes with a NULL dereference at
      line 199 right after the first [< key] line (C5).  A NULL array
      crashes before any output (C6).  The fully matched case (C18), a
      file against itself (C19), and [kvs_find_key] (C20).
    - Parser: the index-level parser equals the reference parser on every
      NUL-free line (C3).  Also:
      - the round trip on padded [K = V] lines (C14);
      - the missing-['='] error (C15);
      - the buffer over-read of a line that is one bare token (C7);
      - empty keys are accepted (C16);
      - parsed entries are well formed (C17).
    - Loader: [kvs_from_file] computes [load_text] of the stream's lines
      and stops at the first bad line (C4); a file with no text line gives
      [NULL] (C21); [file_from_arg] (C22).
    - Reader: [getnonwsln] returns the next text line, [NULL] at
      end of file, or exits on a pending read error (C10); classification
      of lines (C11); [getln] returns exactly the next line (C12); a read
      error after the last line is fatal (C13); [getnonwsln] terminates
      (C25).

    ** Fuel
    The loops of [getln], [getnonwsln] and [kvs_from_file] run on fuel
    computed from the stream at entry: [S (length of the unread bytes)].
    Each iteration consumes at least one byte or sets the end-of-file or
    error indicator, after which the next iteration stops.  So the fuel is
    enough, and the termination theorems prove that no run returns
    [NoFuel].  [diff]'s first loop runs once per slot of its first array:
    the code never removes a slot, it only overwrites it, so the
    terminator is reached after exactly that many steps.

    ** Not modelled
    - Memory allocation failure ([_Exit(2)] after [realloc]/[malloc]):
      allocation always succeeds.
    - [free]: modelled only through the [KV_IGNORE] overwrite that follows
      it.
    - The text of [strerror] in [perror] messages: abstracted to a fixed
      string.
    - The code never closes a stream; the model has no [fclose] either. *)

From stdpp Require Import base list options.
From Stdlib Require Import Strings.Byte ZArith Lia.
From Stdlib Require Strings.String.
Export String.StringSyntax.

Declare Scope diffkv_scope.
Delimit Scope diffkv_scope with dk.
Open Scope diffkv_scope.

(** ** Bytes *)

#[export] Instance byte_eq_dec : EqDecision byte := Byte.byte_eq_dec.

Abbreviation bytes := (list byte).

(** A byte string literal, for witnesses: [bs "a=1"]. *)
Definition bs (s : String.string) : bytes := String.list_byte_of_string s.
Arguments bs s%_string_scope.

(** ** Outcomes and the state-and-error monad *)

(** How a run of the C program can end early: a fault of the C abstract
    machine (a NULL dereference, a read outside an object, a dereference
    of the [KV_IGNORE] sentinel pointer [(struct kv * )1]) or an exit. *)
Inductive fault := NullDeref | OutOfBounds | SentinelDeref.

#[export] Instance fault_eq_dec : EqDecision fault.
Proof. solve_decision. Defined.

Inductive res (A : Type) :=
  | Ok (a : A)
  | Exit (code : Z)
  | Crash (f : fault)
  | NoFuel.
Arguments Ok {A} a.
Arguments Exit {A} code.
Arguments Crash {A} f.
Arguments NoFuel {A}.

Definition St (S A : Type) : Type := S -> res A * S.

Definition st_ret {S A} (a : A) : St S A := fun s => (Ok a, s).

Definition st_bind {S A B} (m : St S A) (k : A -> St S B) : St S B :=
  fun s => match m s with
           | (Ok a, s') => k a s'
           | (Exit c, s') => (Exit c, s')
           | (Crash f, s') => (Crash f, s')
           | (NoFuel, s') => (NoFuel, s')
           end.

Definition st_get {S} : St S S := fun s => (Ok s, s).
Definition st_put {S} (s : S) : St S unit := fun _ => (Ok tt, s).
Definition st_modify {S} (f : S -> S) : St S unit := fun s => (Ok tt, f s).
Definition st_exit {S A} (code : Z) : St S A := fun s => (Exit code, s).
Definition st_crash {S A} (f : fault) : St S A := fun s => (Crash f, s).
Definition st_nofuel {S A} : St S A := fun s => (NoFuel, s).

Notation "x <- m ;; k" := (st_bind m (fun x => k))
  (at level 100, m at next level, right associativity) : diffkv_scope.
Notation "m ;; k" := (st_bind m (fun _ => k))
  (at level 100, right associativity) : diffkv_scope.

(** An [option] read of memory: [None] is a read outside the object. *)
Definition st_load {S A} (o : option A) : St S A :=
  match o with Some a => st_ret a | None => st_crash OutOfBounds end.

Section MonadLaws.
Context {S A B C : Type}.

Lemma st_bind_ret_l (a : A) (k : A -> St S B) s :
  st_bind (st_ret a) k s = k a s.
Proof. reflexivity. Qed.

Lemma st_bind_assoc (m : St S A) (k : A -> St S B) (h : B -> St S C) s :
  st_bind (st_bind m k) h s = st_bind m (fun a => st_bind (k a) h) s.
Proof. unfold st_bind. destruct (m s) as [[] s']; reflexivity. Qed.

Lemma st_bind_ok (m : St S A) (k : A -> St S B) s a s' :
  m s = (Ok a, s') -> st_bind m k s = k a s'.
Proof. intros H. unfold st_bind. rewrite H. reflexivity. Qed.

Lemma st_bind_exit (m : St S A) (k : A -> St S B) s c s' :
  m s = (Exit c, s') -> st_bind m k s = (Exit c, s').
Proof. intros H. unfold st_bind. rewrite H. reflexivity. Qed.

Lemma st_bind_crash (m : St S A) (k : A -> St S B) s f s' :
  m s = (Crash f, s') -> st_bind m k s = (Crash f, s').
Proof. intros H. unfold st_bind. rewrite H. reflexivity. Qed.
End MonadLaws.

(** ** Loops over buffers *)

Section Scan.
Context {A : Type} (p : A -> bool).

(** [scan p l] is the number of steps of [while (p( *c)) c++] started at
    the head of [l]; [None] when the loop runs past the end of [l]. *)
Fixpoint scan (l : list A) : option nat :=
  match l with
  | [] => None
  | x :: r => if p x then S <$> scan r else Some 0
  end.

Fixpoint take_while (l : list A) : list A :=
  match l with
  | [] => []
  | x :: r => if p x then x :: take_while r else []
  end.

Fixpoint drop_while (l : list A) : list A :=
  match l with
  | [] => []
  | x :: r => if p x then drop_while r else l
  end.

Lemma take_drop_while (l : list A) : take_while l ++ drop_while l = l.
Proof. induction l as [|x r IH]; simpl; [done|]. destruct (p x); simpl; congruence. Qed.

Lemma drop_while_head (l : list A) x r :
  drop_while l = x :: r -> p x = false.
Proof.
  induction l as [|y l IH]; simpl; [done|].
  destruct (p y) eqn:E; [auto | intros [= -> _]; done].
Qed.

Lemma take_while_all (l : list A) : Forall (fun x => p x = true) (take_while l).
Proof. induction l as [|x r IH]; simpl; [done|]. destruct (p x) eqn:E; auto. Qed.

(** The loop stops at the first element that fails [p], if there is one. *)
Lemma scan_take_while (l : list A) :
  drop_while l <> [] -> scan l = Some (length (take_while l)).
Proof.
  induction l as [|x r IH]; simpl; [done|].
  destruct (p x); simpl; [|done]. intros H. by rewrite IH.
Qed.

Lemma scan_drop_while_nil (l : list A) : drop_while l = [] -> scan l = None.
Proof.
  induction l as [|x r IH]; simpl; [done|].
  destruct (p x); [intros H; by rewrite IH | done].
Qed.

Lemma take_while_app_l (l1 l2 : list A) :
  drop_while l1 <> [] -> take_while (l1 ++ l2) = take_while l1.
Proof.
  induction l1 as [|x r IH]; simpl; [done|].
  destruct (p x); [intros H; by rewrite IH | done].
Qed.

Lemma drop_while_app_l (l1 l2 : list A) :
  drop_while l1 <> [] -> drop_while (l1 ++ l2) = drop_while l1 ++ l2.
Proof.
  induction l1 as [|x r IH]; simpl; [done|].
  destruct (p x); [intros H; by rewrite IH | done].
Qed.

Lemma take_while_app_r (l1 l2 : list A) :
  drop_while l1 = [] -> take_while (l1 ++ l2) = l1 ++ take_while l2.
Proof.
  induction l1 as [|x r IH]; simpl; [done|].
  destruct (p x); [intros H; by rewrite IH | done].
Qed.

Lemma drop_while_app_r (l1 l2 : list A) :
  drop_while l1 = [] -> drop_while (l1 ++ l2) = drop_while l2.
Proof.
  induction l1 as [|x r IH]; simpl; [done|].
  destruct (p x); [intros H; by rewrite IH | done].
Qed.

Lemma drop_while_all (l : list A) :
  Forall (fun x => p x = true) l -> drop_while l = [].
Proof. induction 1 as [|x r Hx _ IH]; simpl; [done|]. by rewrite Hx. Qed.

Lemma take_while_all_id (l : list A) :
  Forall (fun x => p x = true) l -> take_while l = l.
Proof. induction 1 as [|x r Hx _ IH]; simpl; [done|]. by rewrite Hx, IH. Qed.

Lemma take_while_stop (l1 l2 : list A) x :
  Forall (fun y => p y = true) l1 -> p x = false ->
  take_while (l1 ++ x :: l2) = l1.
Proof. induction 1 as [|y r Hy _ IH]; simpl; intros Hx; [by rewrite Hx | by rewrite Hy, IH]. Qed.

Lemma drop_while_stop (l1 l2 : list A) x :
  Forall (fun y => p y = true) l1 -> p x = false ->
  drop_while (l1 ++ x :: l2) = x :: l2.
Proof. induction 1 as [|y r Hy _ IH]; simpl; intros Hx; [by rewrite Hx | by rewrite Hy, IH]. Qed.

(** A loop that is stopped by the last byte of the buffer stays inside it. *)
Lemma drop_while_snoc_ne (l : list A) x :
  p x = false -> drop_while (l ++ [x]) <> [].
Proof.
  intros Hx. induction l as [|y r IH]; simpl; [by rewrite Hx|].
  by destruct (p y).
Qed.

Lemma take_while_snoc (l : list A) x :
  p x = false -> take_while (l ++ [x]) = take_while l.
Proof.
  intros Hx. induction l as [|y r IH]; simpl; [by rewrite Hx|].
  destruct (p y); by rewrite ?IH.
Qed.

Lemma scan_stop_snoc (l : list A) x :
  p x = false -> scan (l ++ [x]) = Some (length (take_while l)).
Proof.
  intros Hx. rewrite scan_take_while by (by apply drop_while_snoc_ne).
  by rewrite take_while_snoc.
Qed.

Lemma scan_app_l (l1 l2 : list A) :
  drop_while l1 <> [] -> scan (l1 ++ l2) = Some (length (take_while l1)).
Proof.
  intros H. rewrite scan_take_while.
  - by rewrite take_while_app_l.
  - rewrite drop_while_app_l by done. by destruct (drop_while l1).
Qed.

Lemma drop_while_nil_Forall (l : list A) :
  drop_while l = [] -> Forall (fun x => p x = true) l.
Proof.
  intros H. rewrite <- (take_drop_while l), H, app_nil_r. apply take_while_all.
Qed.

Lemma Forall_take_while (P : A -> Prop) (l : list A) :
  Forall P l -> Forall P (take_while l).
Proof. rewrite <- (take_drop_while l) at 1. by intros [? _]%Forall_app. Qed.

Lemma Forall_drop_while (P : A -> Prop) (l : list A) :
  Forall P l -> Forall P (drop_while l).
Proof. rewrite <- (take_drop_while l) at 1. by intros [_ ?]%Forall_app. Qed.
End Scan.

(** ** Lists updated by index *)

Lemma insert_at_app {A} (L Z : list A) i x :
  i = length L -> <[i:=x]> (L ++ Z) = L ++ <[0:=x]> Z.
Proof. intros ->. rewrite <- (Nat.add_0_r (length L)). apply insert_app_r. Qed.

Lemma app_cons_ne {A} (l : list A) x r : l ++ x :: r <> [].
Proof. by destruct l. Qed.

Lemma insert_head {A} (y : A) ys x : <[0:=x]> (y :: ys) = x :: ys.
Proof. reflexivity. Qed.

(** ** Footprints of computations

    What a computation leaves unchanged, and which outcomes it never has,
    proved once per operation and composed through [st_bind]. *)

Section Footprint.
Context {S T : Type} (obs : S -> T).

(** [m] never changes the observation [obs] of the state, whatever its
    outcome. *)
Definition preserves {A} (m : St S A) : Prop := forall s, obs (snd (m s)) = obs s.

(** When [m] exits, [obs] is what it was before [m]. *)
Definition exit_quiet {A} (m : St S A) : Prop :=
  forall s c, fst (m s) = Exit c -> obs (snd (m s)) = obs s.

Lemma preserves_ret {A} (a : A) : preserves (st_ret a).
Proof. done. Qed.

Lemma preserves_get : preserves st_get.
Proof. done. Qed.

Lemma preserves_exit {A} c : preserves (@st_exit S A c).
Proof. done. Qed.

Lemma preserves_crash {A} f : preserves (@st_crash S A f).
Proof. done. Qed.

Lemma preserves_nofuel {A} : preserves (@st_nofuel S A).
Proof. done. Qed.

Lemma preserves_modify f : (forall s, obs (f s) = obs s) -> preserves (st_modify f).
Proof. done. Qed.

Lemma preserves_bind {A B} (m : St S A) (k : A -> St S B) :
  preserves m -> (forall a, preserves (k a)) -> preserves (st_bind m k).
Proof.
  intros Hm Hk s. specialize (Hm s). unfold st_bind.
  destruct (m s) as [[a| | |] s']; simpl in *; [by rewrite Hk | done..].
Qed.

Lemma preserves_exit_quiet {A} (m : St S A) : preserves m -> exit_quiet m.
Proof. intros Hm s c _. apply Hm. Qed.

Lemma exit_quiet_bind {A B} (m : St S A) (k : A -> St S B) :
  preserves m -> (forall a, exit_quiet (k a)) -> exit_quiet (st_bind m k).
Proof.
  intros Hm Hk s c. specialize (Hm s). unfold st_bind.
  destruct (m s) as [[a| | |] s'] eqn:E; simpl in *; [| done..].
  intros Hc. by rewrite (Hk a s' c Hc).
Qed.
End Footprint.

(** The kind of an outcome, and computations that never have one kind. *)
Inductive outcome := OOk | OExit | OCrash | ONoFuel.

Definition kind {A} (r : res A) : outcome :=
  match r with Ok _ => OOk | Exit _ => OExit | Crash _ => OCrash | NoFuel => ONoFuel end.

Definition never {S A} (o : outcome) (m : St S A) : Prop := forall s, kind (fst (m s)) <> o.

Section Never.
Context {S : Type} (o : outcome) (Ho : o <> OOk).

Lemma never_ret {A} (a : A) : never (S:=S) o (st_ret a).
Proof using Ho. intros s. simpl. by intros <-. Qed.

Lemma never_get : never (S:=S) o st_get.
Proof using Ho. intros s. simpl. by intros <-. Qed.

Lemma never_modify f : never (S:=S) o (st_modify f).
Proof using Ho. intros s. simpl. by intros <-. Qed.

Lemma never_bind {A B} (m : St S A) (k : A -> St S B) :
  never o m -> (forall a, never o (k a)) -> never o (st_bind m k).
Proof using.
  intros Hm Hk s. specialize (Hm s). unfold st_bind.
  destruct (m s) as [[a| | |] s']; simpl in *; [apply Hk | done..].
Qed.
End Never.

Lemma never_crash {S A} o f : o <> OCrash -> never o (@st_crash S A f).
Proof. intros Ho s. simpl. by intros <-. Qed.

Lemma never_exit {S A} o c : o <> OExit -> never o (@st_exit S A c).
Proof. intros Ho s. simpl. by intros <-. Qed.

Lemma never_exit_quiet {S T A} (obs : S -> T) (m : St S A) : never OExit m -> exit_quiet obs m.
Proof. intros Hm s c Hc. exfalso. apply (Hm s). by rewrite Hc. Qed.

(** ** Total correctness

    [total P m Q]: from a state satisfying [P], [m] does not run out of
    fuel, and when it returns [a], the state it leaves satisfies [Q a].
    An [Exit] or a [Crash] is a final outcome and satisfies the triple. *)
Definition total {S A} (P : S -> Prop) (m : St S A) (Q : A -> S -> Prop) : Prop :=
  forall s, P s ->
  match m s with (Ok a, s') => Q a s' | (NoFuel, _) => False | _ => True end.

Lemma total_bind {S A B} P (m : St S A) (k : A -> St S B) Q R :
  total P m Q -> (forall a, total (Q a) (k a) R) -> total P (st_bind m k) R.
Proof.
  intros Hm Hk s Hs. specialize (Hm s Hs). unfold st_bind.
  destruct (m s) as [[a| | |] s']; [by apply Hk | done..].
Qed.

Lemma total_ret {S A} P (a : A) (Q : A -> S -> Prop) :
  (forall s, P s -> Q a s) -> total P (st_ret a) Q.
Proof. intros H s. apply H. Qed.

Lemma total_no_nofuel {S A} P (m : St S A) Q s : total P m Q -> P s -> fst (m s) <> NoFuel.
Proof. intros Hm Hs. specialize (Hm s Hs). by destruct (m s) as [[] s']. Qed.

Create HintDb diffkv discriminated.
Create Rewrite HintDb diffkv_rw.

#[export] Hint Resolve take_while_all drop_while_head app_cons_ne : diffkv.
#[export] Hint Resolve preserves_ret preserves_get preserves_exit preserves_crash
  preserves_nofuel preserves_exit_quiet never_ret never_get never_modify
  never_exit_quiet : diffkv.
#[export] Hint Rewrite @take_drop_while @st_bind_ret_l @st_bind_assoc : diffkv_rw.

(** Normalise list concatenations: right-associated, [(x :: l) ++ r]
    reduced. *)
Ltac app_norm := repeat first [rewrite <- app_assoc | progress cbn [app]].
Ltac app_eq := app_norm; reflexivity.

(** Unfold one layer of the monad after [simpl]. *)
Ltac st_simpl :=
  repeat (autorewrite with diffkv_rw; simpl;
          unfold st_bind, st_ret, st_get, st_put, st_modify, st_exit,
                 st_crash, st_nofuel in *; simpl).

(** Footprint of a composite computation: through its binds and the
    matches of its continuations, down to the lemmas of its operations. *)
#[export] Hint Extern 1 (_ <> _) => discriminate : diffkv.

Ltac footprint :=
  repeat first
    [ lazymatch goal with |- forall _, _ => intro end
    | solve [eauto with diffkv]
    | apply preserves_bind
    | apply never_bind
    | case_match ].

Lemma never_total {S A} (P : S -> Prop) (m : St S A) :
  never ONoFuel m -> total P m (fun _ _ => True).
Proof. intros Hm s _. specialize (Hm s). by destruct (m s) as [[] s']. Qed.

#[export] Hint Resolve never_crash never_exit : diffkv.
