(* ===== verification/CType.v ===== *)
(** The C library's character classification and string functions as the
    program calls them ([isspace], [strchr], [strcmp]), on byte lists.  A
    buffer is a [bytes]; a [char *] into it is an index; a C string at
    index [i] is [cstr buf i], the bytes from [i] up to the first NUL. *)

From stdpp Require Import base list options.
From Stdlib Require Import Strings.Byte ZArith Lia.
From S2P Require Import Prelude.

Open Scope diffkv_scope.

(** ** Characters *)

Definition NUL : byte := x00.
Definition NL : byte := x0a.

(** [isspace] in the "C" locale: space, \t, \n, \v, \f, \r.  The source
    passes a plain (signed) [char]; bytes 0x80-0xff are negative there and
    glibc's table answers "no" for them, which is what is modelled. *)
Definition isspace (c : byte) : bool :=
  match c with
  | x20 | x09 | x0a | x0b | x0c | x0d => true
  | _ => false
  end.

Definition byte_eqb (a b : byte) : bool := bool_decide (a = b).

Definition is_nul (c : byte) : bool := byte_eqb c NUL.

Lemma isspace_nul : isspace NUL = false.
Proof. reflexivity. Qed.

Lemma byte_eqb_true a b : byte_eqb a b = true <-> a = b.
Proof. unfold byte_eqb. apply bool_decide_eq_true. Qed.

Lemma byte_eqb_false a b : byte_eqb a b = false <-> a <> b.
Proof. unfold byte_eqb. apply bool_decide_eq_false. Qed.

Lemma byte_eqb_refl a : byte_eqb a a = true.
Proof. by apply byte_eqb_true. Qed.

Lemma isspace_not_nul c : isspace c = true -> c <> NUL.
Proof. intros H ->. discriminate. Qed.

(** A byte list is NUL-free: a C string's contents. *)
Definition nul_free (l : bytes) : Prop := Forall (fun c => c <> NUL) l.

#[export] Instance nul_free_dec l : Decision (nul_free l).
Proof. unfold nul_free. apply _. Defined.

(** ** C strings in a buffer *)

Definition not_nul (c : byte) : bool := negb (is_nul c).

(** The C string starting at index [i] of [buf]. *)
Definition cstr (buf : bytes) (i : nat) : bytes := take_while not_nul (drop i buf).

Lemma not_nul_true c : not_nul c = true <-> c <> NUL.
Proof. unfold not_nul, is_nul. destruct (byte_eqb c NUL) eqn:E; simpl.
  - apply byte_eqb_true in E. naive_solver.
  - apply byte_eqb_false in E. naive_solver.
Qed.

Lemma nul_free_not_nul l : nul_free l <-> Forall (fun c => not_nul c = true) l.
Proof. unfold nul_free. split; intros H; eapply Forall_impl; try apply H; intros c; apply not_nul_true. Qed.

(** The C string of a NUL-terminated NUL-free word is the word. *)
Lemma cstr_word pre w post i :
  i = length pre -> nul_free w ->
  cstr (pre ++ w ++ NUL :: post) i = w.
Proof.
  intros -> Hw. unfold cstr. rewrite drop_app_length.
  apply take_while_stop; [by apply nul_free_not_nul | reflexivity].
Qed.

Lemma cstr_word_end pre w i :
  i = length pre -> nul_free w -> cstr (pre ++ w ++ [NUL]) i = w.
Proof. intros. by apply cstr_word. Qed.

(** ** [strchr] *)

(** [strchr(s, ch)] on the suffix [l] of a buffer: [Some (Some n)] is a
    pointer [n] bytes further, [Some None] is [NULL] (a NUL was reached
    first), [None] a read past the end of the buffer. *)
Fixpoint strchr (l : bytes) (ch : byte) : option (option nat) :=
  match l with
  | [] => None
  | c :: r =>
      if byte_eqb c ch then Some (Some 0)
      else if is_nul c then Some None
      else option_map (option_map S) (strchr r ch)
  end.

Lemma strchr_found pre ch post :
  Forall (fun c => c <> ch /\ c <> NUL) pre ->
  strchr (pre ++ ch :: post) ch = Some (Some (length pre)).
Proof.
  induction 1 as [|c r [Hc Hn] _ IH]; simpl; [by rewrite byte_eqb_refl|].
  apply byte_eqb_false in Hc. rewrite Hc. unfold is_nul.
  apply byte_eqb_false in Hn. rewrite Hn, IH. reflexivity.
Qed.

Lemma strchr_absent pre ch post :
  ch <> NUL -> Forall (fun c => c <> ch /\ c <> NUL) pre ->
  strchr (pre ++ NUL :: post) ch = Some None.
Proof.
  intros Hch. induction 1 as [|c r [Hc Hn] _ IH]; simpl.
  - assert (byte_eqb NUL ch = false) as -> by (apply byte_eqb_false; congruence).
    reflexivity.
  - apply byte_eqb_false in Hc. rewrite Hc. unfold is_nul.
    apply byte_eqb_false in Hn. rewrite Hn, IH. reflexivity.
Qed.

Lemma strchr_cons_other c l ch :
  c <> ch -> c <> NUL -> strchr (c :: l) ch = option_map (option_map S) (strchr l ch).
Proof.
  intros H1 H2. simpl. apply byte_eqb_false in H1. rewrite H1.
  unfold is_nul. apply byte_eqb_false in H2. by rewrite H2.
Qed.

(** ** [strcmp] *)

(** [strcmp] on the contents of two C strings: the difference of the first
    differing bytes as [unsigned char], 0 when equal. *)
Fixpoint strcmp (a b : bytes) : Z :=
  match a, b with
  | [], [] => 0
  | [], y :: _ => - Z.of_N (Byte.to_N y)
  | x :: _, [] => Z.of_N (Byte.to_N x)
  | x :: a', y :: b' =>
      if byte_eqb x y then strcmp a' b'
      else Z.of_N (Byte.to_N x) - Z.of_N (Byte.to_N y)
  end.

Lemma byte_to_N_inj x y : Byte.to_N x = Byte.to_N y -> x = y.
Proof.
  intros H. apply (f_equal Byte.of_N) in H. rewrite !Byte.of_to_N in H. congruence.
Qed.

Lemma byte_to_N_pos x : x <> NUL -> Byte.to_N x <> 0%N.
Proof. intros Hx H. apply Hx, byte_to_N_inj. rewrite H. reflexivity. Qed.

(** On C string contents, [strcmp] is zero exactly on equal strings. *)
Lemma strcmp_eq_0 a b :
  nul_free a -> nul_free b -> strcmp a b = 0%Z <-> a = b.
Proof.
  revert b. induction a as [|x a IH]; intros [|y b] Ha Hb; simpl.
  - done.
  - inversion Hb; subst. pose proof (byte_to_N_pos y ltac:(done)). split; [lia | done].
  - inversion Ha; subst. pose proof (byte_to_N_pos x ltac:(done)). split; [lia | done].
  - inversion Ha; inversion Hb; subst. destruct (byte_eqb x y) eqn:E.
    + apply byte_eqb_true in E as ->. rewrite IH by done. naive_solver.
    + apply byte_eqb_false in E. split; [|naive_solver].
      intros H. exfalso. apply E, byte_to_N_inj. lia.
Qed.

#[export] Hint Resolve isspace_not_nul : diffkv.
