(* ===== verification/Stdio.v ===== *)
(** The part of the C library's stdio that the program calls, as a state
    monad over a [world]: the table of open streams ([FILE *] is an index
    into it, [stdin] is 0), the files that [fopen] can open, and what was
    written to stdout and stderr.  A [FILE] is its unread bytes, whether a
    read error follows them, and its end-of-file and error indicators.
    These model the library, not the program: they are the environment in
    which [Reader], [Loader] and [Main] run. *)

From stdpp Require Import base list options.
From Stdlib Require Import Strings.Byte ZArith Lia.
From S2P Require Import Prelude CType.

Open Scope diffkv_scope.
#[local] Set Default Proof Using "Type*".

Record FILE := mk_file {
  f_data : bytes;   (* bytes not read yet *)
  f_fail : bool;    (* a read error comes after them *)
  f_eof : bool;     (* end-of-file indicator *)
  f_err : bool      (* error indicator *)
}.

Definition closed_file : FILE := mk_file [] false true false.

(** A file as [fopen] finds it: name, contents, and whether reading it
    ends in an I/O error. *)
Record fentry := mk_fentry { fe_name : bytes; fe_data : bytes; fe_fail : bool }.

Record world := mk_world {
  w_files : list FILE;
  w_fs : list fentry;
  w_out : list bytes;
  w_err : list bytes
}.

Abbreviation M := (St world).

Definition STDIN : nat := 0.

(** The stream behind [FILE *] [h]. *)
Definition file_at (w : world) (h : nat) : FILE := default closed_file (w_files w !! h).

Definition set_file (h : nat) (f : FILE) (w : world) : world :=
  mk_world (<[h := f]> (w_files w)) (w_fs w) (w_out w) (w_err w).

(** [fgetc]: a byte, or [EOF] with the end-of-file or the error indicator
    set.  End of file is sticky, as in glibc since 2.28: once the indicator
    is set [fgetc] returns [EOF] without reading. *)
Inductive chr := EOF | Chr (c : byte).

Definition fgetc (h : nat) : M chr := fun w =>
  let f := file_at w h in
  if f_eof f || f_err f then (Ok EOF, w)
  else match f_data f with
       | c :: r => (Ok (Chr c), set_file h (mk_file r (f_fail f) false false) w)
       | [] => if f_fail f then (Ok EOF, set_file h (mk_file [] true false true) w)
               else (Ok EOF, set_file h (mk_file [] false true false) w)
       end.

Definition feof (h : nat) : M bool := fun w => (Ok (f_eof (file_at w h)), w).
Definition ferror (h : nat) : M bool := fun w => (Ok (f_err (file_at w h)), w).

Fixpoint fs_lookup (fs : list fentry) (name : bytes) : option fentry :=
  match fs with
  | [] => None
  | e :: r => if bool_decide (fe_name e = name) then Some e else fs_lookup r name
  end.

(** [fopen(name, "rb")]: a new stream on the file, or [NULL]. *)
Definition fopen (name : bytes) : M (option nat) := fun w =>
  match fs_lookup (w_fs w) name with
  | None => (Ok None, w)
  | Some e =>
      (Ok (Some (length (w_files w))),
       mk_world (w_files w ++ [mk_file (fe_data e) (fe_fail e) false false])
                (w_fs w) (w_out w) (w_err w))
  end.

Definition add_out (line : bytes) (w : world) : world :=
  mk_world (w_files w) (w_fs w) (w_out w ++ [line]) (w_err w).
Definition add_err (line : bytes) (w : world) : world :=
  mk_world (w_files w) (w_fs w) (w_out w) (w_err w ++ [line]).

Definition out_line (line : bytes) : M unit := st_modify (add_out line).
Definition err_line (line : bytes) : M unit := st_modify (add_err line).

(** [perror(s)]: [s], a colon and the text of [errno] on stderr.  The
    text of [strerror] is abstracted to one fixed string. *)
Definition strerror_text : bytes := bs "I/O error".

Definition perror_msg (s : bytes) : bytes := s ++ bs ": " ++ strerror_text ++ [NL].

Definition perror (s : bytes) : M unit := err_line (perror_msg s).

(** ** Lemmas on the stream model *)

Lemma file_at_set w h f : h < length (w_files w) -> file_at (set_file h f w) h = f.
Proof. intros H. unfold file_at, set_file. simpl. by rewrite list_lookup_insert_eq. Qed.

Lemma set_file_length w h f : length (w_files (set_file h f w)) = length (w_files w).
Proof. apply length_insert. Qed.

Lemma set_file_set w h f g : set_file h g (set_file h f w) = set_file h g w.
Proof. unfold set_file. simpl. by rewrite list_insert_insert_eq. Qed.

Lemma set_file_out w h f : w_out (set_file h f w) = w_out w.
Proof. reflexivity. Qed.

Lemma set_file_err w h f : w_err (set_file h f w) = w_err w.
Proof. reflexivity. Qed.

(** ** What reading and reporting leave unchanged

    An observation of the world that moving a stream ([set_file]) and
    writing on stderr do not change: stdout, the number of open streams,
    the file system.  The footprint lemmas of every reading operation are
    proved once against this class. *)
Class ReadInvariant {T} (obs : world -> T) := {
  untouched_set h f w : obs (set_file h f w) = obs w;
  untouched_err l w : obs (add_err l w) = obs w
}.

#[export] Instance w_out_read_invariant : ReadInvariant w_out.
Proof. by split. Qed.

#[export] Instance nfiles_read_invariant : ReadInvariant (fun w => length (w_files w)).
Proof. split; [intros; apply set_file_length | done]. Qed.

Section ReadFootprint.
Context `{ReadInvariant T obs}.

Lemma fgetc_preserves h : preserves obs (fgetc h).
Proof. intros w. unfold fgetc. repeat case_match; simpl; rewrite ?untouched_set; done. Qed.

Lemma feof_preserves h : preserves obs (feof h).
Proof. done. Qed.

Lemma ferror_preserves h : preserves obs (ferror h).
Proof. done. Qed.

Lemma err_line_preserves l : preserves obs (err_line l).
Proof. apply preserves_modify, untouched_err. Qed.

Lemma perror_preserves s : preserves obs (perror s).
Proof. apply err_line_preserves. Qed.
End ReadFootprint.

Lemma fopen_preserves_out name : preserves w_out (fopen name).
Proof. intros w. unfold fopen. by case_match. Qed.

(** [fopen] returns the index of the stream it adds. *)
Lemma fopen_new name w h w' :
  fopen name w = (Ok (Some h), w') -> h = length (w_files w) /\ length (w_files w') = S h.
Proof.
  unfold fopen. case_match; intros [= <- <-]. simpl. rewrite length_app. simpl. lia.
Qed.

Lemma fopen_none name w o w' : fopen name w = (Ok o, w') -> o = None -> w' = w.
Proof. unfold fopen. case_match; by intros [= <- <-]. Qed.

#[export] Hint Extern 1 (ReadInvariant _) => typeclasses eauto : diffkv.
#[export] Hint Resolve fgetc_preserves feof_preserves ferror_preserves
  err_line_preserves perror_preserves fopen_preserves_out : diffkv.
