(* ===== verification/Parser.v ===== *)
(** The split of one text line into a key and a value: the body of the
    loop of [kvs_from_file], src/diffkv.c lines 108-144.  The line buffer
    is the [bytes] that [getln] returned (the line and its NUL); pointers
    into it are indices; the two in-place writes ([*c = 0] after the key,
    [*++c = 0] after the value) are list updates; the key and the value are
    the C strings at their start indices in the final buffer.  [kv_spec] is
    a reference parser written with [take_while]/[drop_while] on the line,
    and [kv_parse_spec] proves the two equal on every NUL-free line. *)

From stdpp Require Import base list options.
From Stdlib Require Import Strings.Byte ZArith Lia.
From S2P Require Import Prelude CType.

Open Scope diffkv_scope.

(** What the loop body makes of a line: an entry, the fatal
    [missing '='] error (line 122), or a read outside the line buffer. *)
Inductive pres :=
  | PEntry (k v : bytes)
  | PMissingEq
  | POverread.

#[export] Instance pres_eq_dec : EqDecision pres.
Proof. solve_decision. Defined.

Definition EQ : byte := "="%byte.

(** The condition of the key loop, line 115: [!isspace( *c) && *c != '=']. *)
Definition keych (c : byte) : bool := negb (isspace c) && negb (byte_eqb c EQ).

Definition not_eq_sign (c : byte) : bool := negb (byte_eqb c EQ).

(** Lines 128-144, after the key is cut: the value starts after the
    whitespace that follows ['='] at index [eq]; an empty value stops at
    the NUL (the [continue] at line 136); otherwise the trailing
    whitespace before the NUL is cut by a NUL write. *)
Definition kv_value (ln1 : bytes) (k eq : nat) : pres :=
  match scan isspace (drop (S eq) ln1) with
  | None => POverread
  | Some m =>
      let v := S eq + m in
      match ln1 !! v with
      | None => POverread
      | Some cv =>
          if is_nul cv then PEntry (cstr ln1 k) (cstr ln1 v)
          else
            match scan not_nul (drop v ln1) with
            | None => POverread
            | Some e =>
                let j := v + e in
                match scan isspace (rev (take j ln1)) with
                | None => POverread
                | Some t =>
                    let ln2 := <[j - t := NUL]> ln1 in
                    PEntry (cstr ln2 k) (cstr ln2 v)
                end
            end
      end
  end.

(** Lines 117-126, with [c] the index where the key loop stopped: the
    ['='] is at [c] or is found by [strchr(c, '=')]; [NULL] is the fatal
    error of line 122; the key is cut by [*c = 0]. *)
Definition kv_cut (ln : bytes) (k c : nat) : pres :=
  match ln !! c with
  | None => POverread
  | Some cc =>
      let eqr := if byte_eqb cc EQ then Some (Some c)
                 else option_map (option_map (Nat.add c)) (strchr (drop c ln) EQ) in
      match eqr with
      | None => POverread
      | Some None => PMissingEq
      | Some (Some eq) => kv_value (<[c := NUL]> ln) k eq
      end
  end.

(** Lines 108-126: skip the leading whitespace, scan the key up to
    whitespace or ['='], then cut it. *)
Definition kv_parse (ln : bytes) : pres :=
  match scan isspace ln with
  | None => POverread
  | Some k =>
      match scan keych (drop k ln) with
      | None => POverread
      | Some n => kv_cut ln k (k + n)
      end
  end.

(** ** The reference parser *)

Definition rstrip (l : bytes) : bytes := rev (drop_while isspace (rev l)).

Definition value_of (after : bytes) : bytes := rstrip (drop_while isspace after).

(** On a line without NUL: the key is the run of key characters after the
    leading whitespace; the value is what follows the first ['='] after
    the key, with whitespace trimmed on both sides.  A line that ends
    inside the key has nothing to stop the key loop. *)
Definition kv_spec_sep (key : bytes) (s : byte) (rest : bytes) : pres :=
  if byte_eqb s EQ then PEntry key (value_of rest)
  else match drop_while not_eq_sign rest with
       | [] => PMissingEq
       | _ :: after => PEntry key (value_of after)
       end.

Definition kv_spec (line : bytes) : pres :=
  let l1 := drop_while isspace line in
  match drop_while keych l1 with
  | [] => POverread
  | s :: rest => kv_spec_sep (take_while keych l1) s rest
  end.

Example kv_parse_ex1 : kv_parse (bs "  key = some value  " ++ [NUL]) = PEntry (bs "key") (bs "some value").
Proof. reflexivity. Qed.
Example kv_parse_ex2 : kv_parse (bs "k v=w" ++ [NUL]) = PEntry (bs "k") (bs "w").
Proof. reflexivity. Qed.
Example kv_parse_ex3 : kv_parse (bs "key" ++ [NUL]) = POverread.
Proof. reflexivity. Qed.
Example kv_parse_ex4 : kv_parse (bs "key " ++ [NUL]) = PMissingEq.
Proof. reflexivity. Qed.
Example kv_parse_ex5 : kv_parse (bs "key=   " ++ [NUL]) = PEntry (bs "key") [].
Proof. reflexivity. Qed.
Example kv_parse_ex6 : kv_parse (bs "=v" ++ [NUL]) = PEntry [] (bs "v").
Proof. reflexivity. Qed.

(** ** The index-level parser equals the reference parser *)

Section Equivalence.

Lemma nul_free_app l1 l2 : nul_free (l1 ++ l2) <-> nul_free l1 /\ nul_free l2.
Proof. apply Forall_app. Qed.

Lemma nul_free_take_while p l : nul_free l -> nul_free (take_while p l).
Proof. apply Forall_take_while. Qed.

Lemma nul_free_drop_while p l : nul_free l -> nul_free (drop_while p l).
Proof. apply Forall_drop_while. Qed.

Lemma nul_free_rev l : nul_free l -> nul_free (rev l).
Proof. apply Forall_rev. Qed.

(** The value phase, once the buffer is [P ++ A ++ [NUL]] with the ['=']
    (or the NUL that replaced it) as the last byte of [P]. *)
Lemma kv_value_spec P A k key :
  P <> [] -> nul_free A ->
  (forall X, cstr (P ++ X) k = key) ->
  kv_value (P ++ A ++ [NUL]) k (pred (length P)) = PEntry key (value_of A).
Proof.
  intros HP HA Hk. unfold kv_value.
  replace (S (pred (length P))) with (length P) by (destruct P; simpl; [done | lia]).
  rewrite drop_app_length, scan_stop_snoc by reflexivity.
  pose proof (take_drop_while isspace A) as HA'.
  set (w2 := take_while isspace A) in *. clearbody w2. unfold value_of.
  destruct (drop_while isspace A) as [|x r'] eqn:Er.
  - rewrite app_nil_r in HA'. subst A.
    rewrite (app_assoc P), list_lookup_middle by (rewrite length_app; lia). simpl.
    rewrite <- app_assoc, Hk. f_equal.
    rewrite app_assoc. apply (cstr_word_end (P ++ w2) []); [rewrite length_app; lia | constructor].
  - assert (Hx : isspace x = false) by (eapply drop_while_head; eauto).
    assert (Hr : nul_free (x :: r')) by (rewrite <- Er; by apply nul_free_drop_while).
    assert (Hxn : x <> NUL) by (by inversion Hr).
    replace (P ++ A ++ [NUL]) with ((P ++ w2) ++ (x :: r') ++ [NUL])
      by (rewrite <- HA'; by rewrite !app_assoc).
    assert (((P ++ w2) ++ (x :: r') ++ [NUL]) !! (length P + length w2) = Some x) as ->
      by (apply list_lookup_middle; rewrite length_app; lia).
    assert (is_nul x = false) as -> by (by apply byte_eqb_false).
    rewrite drop_app_length' by (rewrite length_app; lia).
    rewrite scan_stop_snoc, take_while_all_id by (reflexivity || by apply nul_free_not_nul).
    rewrite app_assoc, take_app_length' by (rewrite !length_app; lia).
    assert (Hne : drop_while isspace (rev (x :: r')) <> [])
      by (simpl; by apply drop_while_snoc_ne).
    rewrite rev_app_distr, scan_app_l by done.
    pose proof (take_drop_while isspace (rev (x :: r'))) as Hrr.
    set (tw := take_while isspace (rev (x :: r'))) in *.
    set (dw := drop_while isspace (rev (x :: r'))) in *.
    assert (Hx' : x :: r' = rev dw ++ rev tw) by (by rewrite <- rev_app_distr, Hrr, rev_involutive).
    assert (Hlen : length (x :: r') = length dw + length tw)
      by (rewrite Hx', length_app, !length_rev; lia).
    assert (Hdw : nul_free (rev dw)).
    { apply nul_free_rev. unfold dw. by apply nul_free_drop_while, nul_free_rev. }
    replace (((P ++ w2) ++ x :: r') ++ [NUL]) with (((P ++ w2) ++ rev dw) ++ rev tw ++ [NUL])
      by (rewrite Hx'; by rewrite !app_assoc).
    rewrite insert_at_app by (rewrite !length_app, length_rev; lia).
    destruct (rev tw ++ [NUL]) as [|y ys] eqn:Ey; [by destruct (rev tw) |].
    rewrite insert_head, <- !app_assoc, Hk. f_equal.
    unfold rstrip. fold dw.
    rewrite app_assoc. apply cstr_word; [rewrite length_app; lia | done].
Qed.

Lemma keych_space s : keych s = false -> byte_eqb s EQ = false -> isspace s = true.
Proof. unfold keych. rewrite Bool.andb_false_iff. intros [H|H] E; [by destruct (isspace s) | by rewrite E in H]. Qed.

Lemma cstr_key w key X : nul_free key -> cstr (w ++ key ++ NUL :: X) (length w) = key.
Proof. intros. by apply cstr_word. Qed.

(** The ['='] is where the key loop stopped. *)
Lemma kv_cut_at_eq w key rest :
  nul_free key -> nul_free rest ->
  kv_cut ((w ++ key) ++ EQ :: rest ++ [NUL]) (length w) (length w + length key)
  = PEntry key (value_of rest).
Proof.
  intros Hkn Hrn. unfold kv_cut.
  rewrite list_lookup_middle by (rewrite length_app; lia). rewrite byte_eqb_refl.
  rewrite insert_at_app, insert_head by (rewrite length_app; lia).
  replace ((w ++ key) ++ NUL :: rest ++ [NUL]) with (((w ++ key) ++ [NUL]) ++ rest ++ [NUL])
    by app_eq.
  replace (length w + length key) with (pred (length ((w ++ key) ++ [NUL])))
    by (rewrite !length_app; simpl; lia).
  apply kv_value_spec; [apply app_cons_ne | done |].
  intros X. rewrite <- !app_assoc. by apply cstr_key.
Qed.

(** The key loop stopped at whitespace [s]: [strchr] looks for the ['=']. *)
Lemma kv_cut_strchr w key s rest :
  nul_free key -> s <> EQ -> s <> NUL -> nul_free rest ->
  kv_cut ((w ++ key) ++ s :: rest ++ [NUL]) (length w) (length w + length key)
  = kv_spec_sep key s rest.
Proof.
  intros Hkn HsE Hsn Hrestn. unfold kv_cut, kv_spec_sep.
  rewrite list_lookup_middle by (rewrite length_app; lia).
  assert (byte_eqb s EQ = false) as -> by (by apply byte_eqb_false).
  rewrite drop_app_length' by (rewrite length_app; lia).
  rewrite strchr_cons_other by done.
  pose proof (take_drop_while not_eq_sign rest) as Hr.
  set (pre := take_while not_eq_sign rest) in *.
  assert (Hpre : Forall (fun c => c <> EQ /\ c <> NUL) pre).
  { apply Forall_and; split; [| by apply nul_free_take_while].
    eapply Forall_impl; [apply take_while_all |]. simpl.
    intros c Hc. apply byte_eqb_false. unfold not_eq_sign in Hc. by destruct (byte_eqb c EQ). }
  destruct (drop_while not_eq_sign rest) as [|e after] eqn:Ee.
  { rewrite app_nil_r in Hr. rewrite <- Hr, strchr_absent by done. reflexivity. }
  assert (He : e = EQ).
  { apply byte_eqb_true. pose proof (drop_while_head _ _ _ _ Ee) as He.
    unfold not_eq_sign in He. by destruct (byte_eqb e EQ). }
  subst e. rewrite <- Hr.
  assert (Hf : strchr ((pre ++ EQ :: after) ++ [NUL]) EQ = Some (Some (length pre)))
    by (rewrite <- app_assoc; by apply strchr_found).
  rewrite Hf. simpl. rewrite insert_at_app, insert_head by (rewrite length_app; lia).
  replace ((w ++ key) ++ NUL :: (pre ++ EQ :: after) ++ [NUL])
    with (((w ++ key) ++ NUL :: pre ++ [EQ]) ++ after ++ [NUL]) by app_eq.
  replace (length w + length key + S (length pre))
    with (pred (length ((w ++ key) ++ NUL :: pre ++ [EQ])))
    by (rewrite !length_app; simpl; rewrite length_app; simpl; lia).
  apply kv_value_spec; [apply app_cons_ne | |].
  - rewrite <- Hr in Hrestn. apply nul_free_app in Hrestn as [_ Ha]. by inversion Ha.
  - intros X. rewrite <- !app_assoc. by apply cstr_key.
Qed.

(** The split of lines 108-144 computes the reference parser. *)
Lemma kv_parse_refines line :
  nul_free line -> kv_parse (line ++ [NUL]) = kv_spec line.
Proof.
  intros Hn. unfold kv_parse, kv_spec.
  pose proof (take_drop_while isspace line) as Hl.
  set (w := take_while isspace line) in *. set (l1 := drop_while isspace line) in *.
  assert (Hl1n : nul_free l1) by (by apply nul_free_drop_while).
  rewrite scan_stop_snoc by reflexivity. fold w.
  rewrite <- Hl, <- app_assoc, drop_app_length.
  destruct (drop_while keych l1) as [|s rest] eqn:Ek.
  { rewrite scan_drop_while_nil; [done |]. by rewrite drop_while_app_r. }
  pose proof (take_drop_while keych l1) as Hk1. rewrite Ek in Hk1.
  set (key := take_while keych l1) in *.
  assert (Hkn : nul_free key) by (by apply nul_free_take_while).
  assert (Hrn : nul_free (s :: rest)) by (rewrite <- Ek; by apply nul_free_drop_while).
  assert (Hs : keych s = false) by (eapply drop_while_head; eauto).
  rewrite scan_app_l by (by rewrite Ek). fold key.
  rewrite <- Hk1.
  replace (w ++ (key ++ s :: rest) ++ [NUL]) with ((w ++ key) ++ s :: rest ++ [NUL]) by app_eq.
  apply Forall_cons in Hrn as [Hsn Hrestn].
  destruct (byte_eqb s EQ) eqn:Es.
  - apply byte_eqb_true in Es as ->. unfold kv_spec_sep. rewrite byte_eqb_refl.
    by apply kv_cut_at_eq.
  - apply kv_cut_strchr; [done | by apply byte_eqb_false | done | done].
Qed.

(** C3: on every NUL-free line, the pointer-level split of lines
    108-144 computes what the reference parser [kv_spec] computes. *)
Theorem kv_parse_spec line :
  nul_free line -> kv_parse (line ++ [NUL]) = kv_spec line.
Proof. exact (kv_parse_refines line). Qed.

Lemma kv_parse_spec_witness :
  kv_parse (bs " key = v a l " ++ [NUL]) = kv_spec (bs " key = v a l ").
Proof. apply kv_parse_spec. apply (bool_decide_unpack _). vm_compute. constructor. Defined.
End Equivalence.

(** ** Behaviour of the parser *)

(** Whitespace padding, key tokens, trimmed values. *)
Definition blank (l : bytes) : Prop := Forall (fun c => isspace c = true) l.
Definition keyword (K : bytes) : Prop := Forall (fun c => keych c = true /\ c <> NUL) K.
Definition starts_nonblank (l : bytes) : bool :=
  match l with [] => true | x :: _ => negb (isspace x) end.
Definition trimmed (V : bytes) : Prop :=
  nul_free V /\ starts_nonblank V = true /\ starts_nonblank (rev V) = true.

#[export] Instance blank_dec l : Decision (blank l).
Proof. unfold blank. apply _. Defined.
#[export] Instance keyword_dec K : Decision (keyword K).
Proof. unfold keyword. apply _. Defined.
#[export] Instance trimmed_dec V : Decision (trimmed V).
Proof. unfold trimmed. apply _. Defined.

Section Behaviour.

Lemma blank_nul_free l : blank l -> nul_free l.
Proof. intros H. eapply Forall_impl; [apply H |]. intros c. apply isspace_not_nul. Qed.

Lemma keyword_nul_free K : keyword K -> nul_free K.
Proof. intros H. eapply Forall_impl; [apply H |]. naive_solver. Qed.

Lemma blank_not_eq l : blank l -> Forall (fun c => not_eq_sign c = true) l.
Proof.
  intros H. eapply Forall_impl; [apply H |]. intros c Hc. unfold not_eq_sign.
  destruct (byte_eqb c EQ) eqn:E; [apply byte_eqb_true in E; subst; discriminate | done].
Qed.

Lemma blank_keych l : blank l -> Forall (fun c => keych c = false) l.
Proof. intros H. eapply Forall_impl; [apply H |]. intros c Hc. unfold keych. by rewrite Hc. Qed.

Lemma keyword_keych K : keyword K -> Forall (fun c => keych c = true) K.
Proof. intros H. eapply Forall_impl; [apply H |]. naive_solver. Qed.

Lemma keych_not_space c : keych c = true -> isspace c = false.
Proof. unfold keych. by destruct (isspace c). Qed.

(** The value of [w3 ++ V ++ w4] is [V] when [V] is trimmed. *)
Lemma drop_while_nonblank l : starts_nonblank l = true -> drop_while isspace l = l.
Proof. destruct l as [|x l]; simpl; [done|]. by destruct (isspace x). Qed.

Lemma value_of_trimmed w3 V w4 :
  blank w3 -> blank w4 -> trimmed V -> value_of (w3 ++ V ++ w4) = V.
Proof.
  intros H3 H4 (_ & Hl & Hr). unfold value_of, rstrip.
  rewrite drop_while_app_r by (by apply drop_while_all).
  destruct V as [|x V'].
  - simpl. rewrite (drop_while_all _ w4) by done. reflexivity.
  - rewrite drop_while_app_l by (by rewrite drop_while_nonblank).
    rewrite (drop_while_nonblank (x :: V')) by done.
    rewrite rev_app_distr, drop_while_app_r by (by apply drop_while_all, Forall_rev).
    by rewrite drop_while_nonblank, rev_involutive.
Qed.

(** Every value the reference parser produces is trimmed. *)
Lemma value_of_is_trimmed r : nul_free r -> trimmed (value_of r).
Proof.
  intros Hr. unfold value_of, rstrip.
  pose proof (take_drop_while isspace (rev (drop_while isspace r))) as HR.
  set (R := drop_while isspace r) in *.
  set (D := drop_while isspace (rev R)) in *.
  assert (HRn : nul_free R) by (by apply nul_free_drop_while).
  split; [by apply nul_free_rev, nul_free_drop_while, nul_free_rev |].
  rewrite rev_involutive. split.
  - apply (f_equal (@rev byte)) in HR. rewrite rev_app_distr, rev_involutive in HR.
    destruct (rev D) as [|y V] eqn:EV; [done |]. simpl.
    assert (Hy : R = y :: V ++ rev (take_while isspace (rev R))) by (symmetry; exact HR).
    assert (isspace y = false) as -> by (eapply drop_while_head; unfold R in Hy; exact Hy).
    done.
  - destruct D as [|d D'] eqn:ED; [done |]. simpl.
    assert (isspace d = false) as -> by (eapply drop_while_head; exact ED). done.
Qed.

(** The reference parser on [w1 ++ K ++ w2 ++ '=' ++ rest]. *)
Lemma kv_spec_entry w1 K w2 rest :
  blank w1 -> blank w2 -> keyword K ->
  kv_spec (w1 ++ K ++ w2 ++ EQ :: rest) = PEntry K (value_of rest).
Proof.
  intros H1 H2 HK. unfold kv_spec, kv_spec_sep.
  destruct K as [|x K'].
  - rewrite app_nil_l, app_assoc, drop_while_stop by (by apply Forall_app || reflexivity).
    reflexivity.
  - apply Forall_cons in HK as HK'. destruct HK' as [[Hx _] _].
    rewrite <- app_comm_cons, drop_while_stop by (done || by apply keych_not_space).
    rewrite app_comm_cons, take_while_app_r, drop_while_app_r
      by (by apply drop_while_all, keyword_keych).
    destruct w2 as [|s w2']; simpl.
    + rewrite app_nil_r. reflexivity.
    + apply Forall_cons in H2 as [Hs H2'].
      assert (keych s = false) as -> by (unfold keych; by rewrite Hs).
      assert (byte_eqb s EQ = false) as ->
        by (apply byte_eqb_false; intros ->; discriminate).
      rewrite app_nil_r, drop_while_stop by (by apply blank_not_eq || reflexivity).
      reflexivity.
Qed.

Lemma spec_split_key w1 K s tail :
  blank w1 -> keyword K -> K <> [] -> keych s = false ->
  drop_while isspace (w1 ++ K ++ s :: tail) = K ++ s :: tail /\
  take_while keych (K ++ s :: tail) = K /\
  drop_while keych (K ++ s :: tail) = s :: tail.
Proof.
  intros H1 HK HKne Hs. destruct K as [|x K']; [done |].
  apply Forall_cons in HK as HK'. destruct HK' as [[Hx _] _].
  split; [rewrite <- app_comm_cons; apply drop_while_stop; [done | by apply keych_not_space] |].
  split; [apply take_while_stop | apply drop_while_stop]; try done; by apply keyword_keych.
Qed.

Lemma nul_free_app_intro a b : nul_free a -> nul_free b -> nul_free (a ++ b).
Proof. intros. by apply nul_free_app. Qed.

Lemma nul_free_cons_intro x l : x <> NUL -> nul_free l -> nul_free (x :: l).
Proof. by constructor. Qed.

Lemma EQ_not_nul : EQ <> NUL.
Proof. discriminate. Qed.

Lemma trimmed_nul_free V : trimmed V -> nul_free V.
Proof. by intros []. Qed.

End Behaviour.

#[export] Hint Resolve nul_free_app_intro nul_free_cons_intro EQ_not_nul blank_nul_free
  keyword_nul_free trimmed_nul_free : diffkv.

(** C14: a padded line [K = V] with a key token [K] and a trimmed value [V]
    parses to the entry [(K, V)]: the whitespace around the key, around
    the ['='] and after the value is dropped (spec P2, P3). *)
Theorem kv_parse_roundtrip w1 K w2 w3 V w4 :
  blank w1 -> blank w2 -> blank w3 -> blank w4 -> keyword K -> trimmed V ->
  kv_parse ((w1 ++ K ++ w2 ++ EQ :: w3 ++ V ++ w4) ++ [NUL]) = PEntry K V.
Proof.
  intros. rewrite kv_parse_refines by (repeat (apply nul_free_app_intro || apply nul_free_cons_intro); eauto with diffkv).
  rewrite kv_spec_entry, value_of_trimmed; auto.
Qed.

Lemma kv_parse_roundtrip_witness :
  kv_parse ((bs " " ++ bs "key" ++ bs "  " ++ EQ :: bs " " ++ bs "some value" ++ bs " ") ++ [NUL])
  = PEntry (bs "key") (bs "some value").
Proof.
  apply kv_parse_roundtrip;
    apply (bool_decide_unpack _); vm_compute; constructor.
Defined.

(** C15: a text line whose key token is followed by whitespace and then by
    no ['='] at all is the fatal [missing '='] error (spec P4). *)
Theorem kv_parse_missing_eq w1 K s rest :
  blank w1 -> keyword K -> K <> [] -> isspace s = true -> nul_free rest ->
  Forall (fun c => c <> EQ) rest ->
  kv_parse ((w1 ++ K ++ s :: rest) ++ [NUL]) = PMissingEq.
Proof.
  intros H1 HK HKne Hs Hr Hne.
  assert (Hks : keych s = false) by (unfold keych; by rewrite Hs).
  rewrite kv_parse_refines
    by (repeat (apply nul_free_app_intro || apply nul_free_cons_intro); eauto with diffkv).
  unfold kv_spec, kv_spec_sep. destruct (spec_split_key w1 K s rest) as (-> & -> & ->); [done.. |].
  assert (byte_eqb s EQ = false) as -> by (apply byte_eqb_false; intros ->; discriminate).
  rewrite drop_while_all; [done |].
  eapply Forall_impl; [apply Hne |]. intros c Hc. unfold not_eq_sign.
  by destruct (byte_eqb c EQ) eqn:E; [apply byte_eqb_true in E |].
Qed.

Lemma kv_parse_missing_eq_witness :
  kv_parse ((bs "" ++ bs "key" ++ " "%byte :: bs "no separator") ++ [NUL]) = PMissingEq.
Proof.
  apply kv_parse_missing_eq; apply (bool_decide_unpack _); vm_compute; constructor.
Defined.

(** C7: a text line that is one bare key token, with no whitespace and no
    ['='] after it, makes the key loop of line 115 read past the NUL that
    ends the line buffer: NUL is neither whitespace nor ['='], so nothing
    stops the loop inside the buffer. *)
Theorem kv_parse_overread w1 K :
  blank w1 -> keyword K -> kv_parse ((w1 ++ K) ++ [NUL]) = POverread.
Proof.
  intros H1 HK.
  rewrite kv_parse_refines by (apply nul_free_app_intro; eauto with diffkv).
  unfold kv_spec. rewrite drop_while_app_r by (by apply drop_while_all).
  destruct K as [|x K']; [done |].
  apply Forall_cons in HK as HK'. destruct HK' as [[Hx _] _].
  simpl. rewrite (keych_not_space x Hx). simpl. rewrite Hx.
  rewrite drop_while_all; [done |]. apply keyword_keych. by apply Forall_cons in HK as [_ ?].
Qed.

Lemma kv_parse_overread_witness : kv_parse ((bs "  " ++ bs "keywithoutequals") ++ [NUL]) = POverread.
Proof. apply kv_parse_overread; apply (bool_decide_unpack _); vm_compute; constructor. Defined.

(** C16: a line whose first non-blank byte is ['='] is accepted with an
    empty key, although the specification says a key is never empty. *)
Theorem kv_parse_empty_key w rest :
  blank w -> nul_free rest -> kv_parse ((w ++ EQ :: rest) ++ [NUL]) = PEntry [] (value_of rest).
Proof.
  intros Hw Hr.
  rewrite kv_parse_refines by (apply nul_free_app_intro; eauto with diffkv).
  apply (kv_spec_entry w [] []); [done | constructor | constructor].
Qed.

Lemma kv_parse_empty_key_witness : kv_parse ((bs " " ++ EQ :: bs "value") ++ [NUL]) = PEntry [] (bs "value").
Proof. apply kv_parse_empty_key; apply (bool_decide_unpack _); vm_compute; constructor. Defined.

(** C17: every entry the parser produces from a NUL-free line has a key made
    of key bytes (no whitespace, no ['='], no NUL) and a value without NUL
    and without leading or trailing whitespace. *)
Theorem kv_parse_entry_wf line k v :
  nul_free line -> kv_parse (line ++ [NUL]) = PEntry k v -> keyword k /\ trimmed v.
Proof.
  intros Hn. rewrite kv_parse_refines by done. unfold kv_spec, kv_spec_sep.
  assert (Hl1 : nul_free (drop_while isspace line)) by (by apply nul_free_drop_while).
  assert (Hkw : keyword (take_while keych (drop_while isspace line))).
  { apply Forall_and; split; [apply take_while_all | by apply nul_free_take_while]. }
  pose proof (nul_free_drop_while keych _ Hl1) as Hd.
  destruct (drop_while keych (drop_while isspace line)) as [|s rest]; [done |].
  apply Forall_cons in Hd as [_ Hrest].
  destruct (byte_eqb s EQ).
  - intros [= <- <-]. split; [done | by apply value_of_is_trimmed].
  - pose proof (nul_free_drop_while not_eq_sign _ Hrest) as Ha.
    destruct (drop_while not_eq_sign rest) as [|e after]; [done |].
    apply Forall_cons in Ha as [_ Ha].
    intros [= <- <-]. split; [done | by apply value_of_is_trimmed].
Qed.

Lemma kv_parse_entry_wf_witness :
  keyword (bs "key") /\ trimmed (bs "some value").
Proof.
  apply (kv_parse_entry_wf (bs "  key = some value  ")).
  - apply (bool_decide_unpack _). vm_compute. constructor.
  - vm_compute. reflexivity.
Defined.
