(* ===== verification/Reader.v ===== *)
(** The line reader and the line classifier, src/diffkv.c lines 14-83:
    [getln] reads one line with [fgetc] into a growing buffer and returns
    it NUL-terminated, or [NULL] when the line is empty; [getlntype]
    classifies a line by its first non-blank byte; [getnonwsln] skips
    lines until a text line or the end of the stream.

    A stream whose unread contents are the lines [ls] joined by newlines is
    [after fl ls]; [getln] on [after fl (l :: r)] returns [l] and leaves
    [after fl r], and [getnonwsln] returns the first text line of [ls].
    The loops run on fuel [S (length of the unread bytes)], which the
    termination lemmas show is enough. *)

From stdpp Require Import base list options.
From Stdlib Require Import Strings.Byte ZArith Lia.
From S2P Require Import Prelude CType Stdio.

Open Scope diffkv_scope.
#[local] Set Default Proof Using "Type*".

Definition HASH : byte := "#"%byte.

(** ** [getln] (lines 21-47) *)

(** The [for (;;)] loop: read until [EOF] or a newline, appending each byte
    ([ln = realloc(ln, ++sz); ln[sz - 1] = c]). *)
Fixpoint getln_loop (fuel : nat) (h : nat) (ln : bytes) : M bytes :=
  match fuel with
  | 0 => st_nofuel
  | S fuel' =>
      c <- fgetc h ;;
      match c with
      | EOF => st_ret ln
      | Chr b => if byte_eqb b NL then st_ret ln else getln_loop fuel' h (ln ++ [b])
      end
  end.

Definition file_fuel (h : nat) : M nat := fun w => (Ok (S (length (f_data (file_at w h)))), w).

(** After the loop: a read error is fatal (lines 38-41); an empty line is
    [NULL] (lines 42-43); otherwise the line gets its NUL (lines 44-46). *)
Definition getln (h : nat) : M (option bytes) :=
  n <- file_fuel h ;;
  ln <- getln_loop n h [] ;;
  e <- ferror h ;;
  if e then perror (bs "file read error") ;; st_exit 1
  else match ln with
       | [] => st_ret None
       | _ => st_ret (Some (ln ++ [NUL]))
       end.

(** ** [getlntype] (lines 14-19, 49-64) *)

Inductive line_type :=
  | LINE_TYPE_EMPTY
  | LINE_TYPE_WS
  | LINE_TYPE_COMMENT
  | LINE_TYPE_TEXT.

#[export] Instance line_type_eq_dec : EqDecision line_type.
Proof. solve_decision. Defined.

(** The loop [for (c = ln; *c; c++)] over the C string [ln]. *)
Fixpoint lntype_loop (s : bytes) : line_type :=
  match s with
  | [] => LINE_TYPE_WS
  | c :: r =>
      if isspace c then lntype_loop r
      else if byte_eqb c HASH then LINE_TYPE_COMMENT
      else LINE_TYPE_TEXT
  end.

Definition getlntype (ln : option bytes) : line_type :=
  match ln with
  | None => LINE_TYPE_EMPTY
  | Some buf => lntype_loop (cstr buf 0)
  end.

(** ** [getnonwsln] (lines 66-83) *)

(** Each turn reads a line; a text line is returned; otherwise the line is
    freed and the loop stops at end of file. *)
Fixpoint getnonwsln_loop (fuel : nat) (h : nat) : M (option bytes) :=
  match fuel with
  | 0 => st_nofuel
  | S fuel' =>
      ln <- getln h ;;
      if bool_decide (getlntype ln = LINE_TYPE_TEXT) then st_ret ln
      else
        eof <- feof h ;;
        if eof then st_ret None else getnonwsln_loop fuel' h
  end.

Definition getnonwsln (h : nat) : M (option bytes) :=
  n <- file_fuel h ;;
  getnonwsln_loop n h.

(** ** Streams as lines *)

(** The bytes of the lines [ls] separated by newlines. *)
Fixpoint join (ls : list bytes) : bytes :=
  match ls with
  | [] => []
  | [l] => l
  | l :: r => l ++ NL :: join r
  end.

(** A stream that still has the lines [ls] to give, and a read error after
    them when [fl]; with no line left it is at end of file (or in error). *)
Definition after (fl : bool) (ls : list bytes) : FILE :=
  match ls with
  | [] => mk_file [] fl (negb fl) fl
  | _ => mk_file (join ls) fl false false
  end.

(** What [getln] returns for a line [l]. *)
Definition line_buf (l : bytes) : option bytes :=
  match l with [] => None | _ => Some (l ++ [NUL]) end.

Definition is_text (l : bytes) : bool := bool_decide (getlntype (line_buf l) = LINE_TYPE_TEXT).

Fixpoint first_text (ls : list bytes) : option (bytes * list bytes) :=
  match ls with
  | [] => None
  | l :: r => if is_text l then Some (l, r) else first_text r
  end.

Definition no_nl (l : bytes) : Prop := Forall (fun c => c <> NL) l.

#[export] Instance no_nl_dec l : Decision (no_nl l).
Proof. unfold no_nl. apply _. Defined.

Definition world1 (f : FILE) : world := mk_world [f] [] [] [].

Example getln_ex1 : getln STDIN (world1 (mk_file (bs "a=1") false false false))
  = (Ok (Some (bs "a=1" ++ [NUL])), world1 (mk_file [] false true false)).
Proof. reflexivity. Qed.
Example getln_ex2 : getln STDIN (world1 (mk_file (NL :: bs "b") false false false))
  = (Ok None, world1 (mk_file (bs "b") false false false)).
Proof. reflexivity. Qed.
Example getlntype_ex : map getlntype [None; Some (bs " 	" ++ [NUL]); Some (bs "  # c" ++ [NUL]); Some (bs " x" ++ [NUL])]
  = [LINE_TYPE_EMPTY; LINE_TYPE_WS; LINE_TYPE_COMMENT; LINE_TYPE_TEXT].
Proof. reflexivity. Qed.
Example getnonwsln_ex : getnonwsln STDIN (world1 (mk_file (bs "# c" ++ NL :: NL :: bs "k=v" ++ NL :: bs "z") false false false))
  = (Ok (Some (bs "k=v" ++ [NUL])), world1 (mk_file (bs "z") false false false)).
Proof. reflexivity. Qed.

(** ** [getln] on a stream of lines *)

Section Getln.

Context (h : nat).

Definition valid (w : world) : Prop := h < length (w_files w).

Lemma valid_set w f : valid w -> valid (set_file h f w).
Proof. unfold valid. by rewrite set_file_length. Qed.

Lemma set_file_id w : valid w -> set_file h (file_at w h) w = w.
Proof.
  intros Hv. destruct w as [fs fsys o e]. unfold set_file, file_at, valid in *. simpl in *.
  f_equal. apply list_insert_id. destruct (fs !! h) eqn:E; [done |].
  apply lookup_ge_None in E. lia.
Qed.

(** The loop reads the bytes of a line up to and including its newline. *)
Lemma getln_loop_nl fuel w l rest fl acc :
  valid w -> no_nl l -> file_at w h = mk_file (l ++ NL :: rest) fl false false ->
  length l < fuel ->
  getln_loop fuel h acc w = (Ok (acc ++ l), set_file h (mk_file rest fl false false) w).
Proof.
  revert fuel w acc. induction l as [|c l IH]; intros [|fuel] w acc Hv Hl Hf Hlen; simpl in Hlen; try lia.
  - simpl. unfold st_bind, fgetc. rewrite Hf. simpl. by rewrite app_nil_r.
  - apply Forall_cons in Hl as [Hc Hl]. simpl. unfold st_bind, fgetc. rewrite Hf. simpl.
    assert (byte_eqb c NL = false) as -> by (by apply byte_eqb_false).
    rewrite IH; [| by apply valid_set | done | by rewrite file_at_set | lia].
    by rewrite set_file_set, <- app_assoc.
Qed.

(** The loop reads the last line up to the end of the stream. *)
Lemma getln_loop_end fuel w l fl acc :
  valid w -> no_nl l -> file_at w h = mk_file l fl false false -> length l < fuel ->
  getln_loop fuel h acc w = (Ok (acc ++ l), set_file h (mk_file [] fl (negb fl) fl) w).
Proof.
  revert fuel w acc. induction l as [|c l IH]; intros [|fuel] w acc Hv Hl Hf Hlen; simpl in Hlen; try lia.
  - simpl. unfold st_bind, fgetc. rewrite Hf. simpl. rewrite app_nil_r. by destruct fl.
  - apply Forall_cons in Hl as [Hc Hl]. simpl. unfold st_bind, fgetc. rewrite Hf. simpl.
    assert (byte_eqb c NL = false) as -> by (by apply byte_eqb_false).
    rewrite IH; [| by apply valid_set | done | by rewrite file_at_set | lia].
    by rewrite set_file_set, <- app_assoc.
Qed.

Lemma length_join_cons l r : r <> [] -> length (join (l :: r)) = length l + S (length (join r)).
Proof. destruct r; [done |]. intros _. simpl. rewrite length_app. simpl. lia. Qed.

(** The read of the line [l] in a stream that has more lines after it. *)
Lemma getln_loop_after fuel w fl l r acc :
  valid w -> no_nl l -> file_at w h = after fl (l :: r) -> length (join (l :: r)) < fuel ->
  fl = false \/ r <> [] ->
  getln_loop fuel h acc w = (Ok (acc ++ l), set_file h (after fl r) w).
Proof.
  intros Hv Hl Hf Hlen Hfl. destruct r as [|l' r].
  - destruct Hfl as [-> | ?]; [| done]. rewrite (getln_loop_end _ _ l false); done.
  - rewrite (getln_loop_nl _ _ l (join (l' :: r)) fl); [done | done | done | exact Hf |].
    rewrite length_join_cons in Hlen by done. lia.
Qed.

End Getln.

Lemma getlntype_none_empty l : line_buf l = None -> l = [].
Proof. by destruct l. Qed.

Lemma f_data_after fl ls : f_data (after fl ls) = join ls.
Proof. by destruct ls. Qed.

Lemma f_err_after fl ls : f_err (after fl ls) = fl && bool_decide (ls = []).
Proof. destruct ls; simpl; [by destruct fl | by destruct fl]. Qed.

Lemma f_eof_after ls : f_eof (after false ls) = bool_decide (ls = []).
Proof. by destruct ls. Qed.

Definition read_error_msg : bytes := perror_msg (bs "file read error").

(** [getln] on a stream of lines: the next line, or, when it is the last
    line and a read error follows it, the fatal error of lines 38-41. *)
Lemma getln_after_gen h w fl l r :
  valid h w -> no_nl l -> file_at w h = after fl (l :: r) ->
  getln h w = if fl && bool_decide (r = [])
              then (Exit 1, add_err read_error_msg (set_file h (after true []) w))
              else (Ok (line_buf l), set_file h (after fl r) w).
Proof.
  intros Hv Hl Hf. unfold getln.
  rewrite (st_bind_ok (file_fuel h) _ w (S (length (join (l :: r)))) w)
    by (unfold file_fuel; by rewrite Hf, f_data_after).
  destruct fl, r as [|l' r].
  - rewrite (st_bind_ok _ _ w l (set_file h (mk_file [] true false true) w))
      by (apply (getln_loop_end h _ w l true []); [done | done | done | simpl; lia]).
    unfold st_bind, ferror. rewrite file_at_set by done. reflexivity.
  - rewrite (st_bind_ok _ _ w l (set_file h (after true (l' :: r)) w))
      by (apply (getln_loop_after h _ w true l (l' :: r) []); [done | done | done | lia | by right]).
    unfold st_bind, ferror. rewrite file_at_set by done. simpl. by destruct l.
  - rewrite (st_bind_ok _ _ w l (set_file h (after false []) w))
      by (apply (getln_loop_after h _ w false l [] []); [done | done | done | simpl; lia | by left]).
    unfold st_bind, ferror. rewrite file_at_set by done. simpl. by destruct l.
  - rewrite (st_bind_ok _ _ w l (set_file h (after false (l' :: r)) w))
      by (apply (getln_loop_after h _ w false l (l' :: r) []); [done | done | done | lia | by left]).
    unfold st_bind, ferror. rewrite file_at_set by done. simpl. by destruct l.
Qed.

(** [getln] on a stream at end of file returns [NULL] and changes nothing;
    in the error state it exits. *)
Lemma getln_at_end h w fl :
  valid h w -> file_at w h = after fl [] ->
  getln h w = if fl then (Exit 1, add_err read_error_msg w) else (Ok None, w).
Proof.
  intros Hv Hf. unfold getln.
  rewrite (st_bind_ok (file_fuel h) _ w 1 w) by (unfold file_fuel; by rewrite Hf).
  rewrite (st_bind_ok (getln_loop 1 h []) _ w [] w)
    by (simpl; unfold st_bind, fgetc; rewrite Hf; by destruct fl).
  unfold st_bind, ferror. rewrite Hf. by destruct fl.
Qed.

(** ** [getnonwsln] on a stream of lines *)

Lemma join_cons_ne l r : r <> [] -> join (l :: r) = l ++ NL :: join r.
Proof. by destruct r. Qed.

Lemma is_text_nonempty l : is_text l = true -> l <> [].
Proof. by destruct l. Qed.

Lemma text_line_buf l : is_text l = true -> line_buf l = Some (l ++ [NUL]).
Proof. by destruct l. Qed.

(** The loop of [getnonwsln] returns the first text line; a read error
    after the last line is fatal when that line is reached. *)
Lemma getnonwsln_loop_gen fuel h w fl ls :
  valid h w -> Forall no_nl ls -> file_at w h = after fl ls -> length (join ls) < fuel ->
  getnonwsln_loop fuel h w =
    match first_text ls with
    | Some (l, r) =>
        if fl && bool_decide (r = [])
        then (Exit 1, add_err read_error_msg (set_file h (after true []) w))
        else (Ok (Some (l ++ [NUL])), set_file h (after fl r) w)
    | None =>
        if fl then (Exit 1, add_err read_error_msg (set_file h (after true []) w))
        else (Ok None, set_file h (after false []) w)
    end.
Proof.
  revert fuel w. induction ls as [|l r IH]; intros [|fuel] w Hv Hls Hf Hlen; try (simpl in Hlen; lia).
  - assert (Hid : set_file h (after fl []) w = w) by (rewrite <- Hf; by apply set_file_id).
    cbn [first_text getnonwsln_loop]. unfold st_bind at 1. rewrite (getln_at_end h w fl) by done.
    destruct fl; rewrite Hid; [done |]. rewrite bool_decide_false by done.
    unfold st_bind, feof. rewrite Hf. reflexivity.
  - apply Forall_cons in Hls as [Hl Hr]. simpl getnonwsln_loop. unfold st_bind at 1.
    rewrite (getln_after_gen h w fl l r) by done. simpl first_text.
    destruct (fl && bool_decide (r = [])) eqn:Efl.
    { apply andb_prop in Efl as [-> Hr0]. apply bool_decide_eq_true in Hr0 as ->.
      simpl. by destruct (is_text l). }
    fold (is_text l). destruct (is_text l) eqn:Et.
    { rewrite text_line_buf by done. by rewrite Efl. }
    unfold st_bind, feof. rewrite file_at_set by done.
    destruct r as [|l' r].
    + destruct fl; [done |]. reflexivity.
    + change (f_eof (after fl (l' :: r))) with false. cbv iota.
      rewrite IH; [| by apply valid_set | done | by rewrite file_at_set |].
      * destruct (first_text (l' :: r)) as [[l1 r1]|]; rewrite !set_file_set; reflexivity.
      * rewrite length_join_cons in Hlen by done. lia.
Qed.

(** ** Every stream is a stream of lines *)

Fixpoint lines_acc (d cur : bytes) : list bytes :=
  match d with
  | [] => [cur]
  | c :: r => if byte_eqb c NL then cur :: lines_acc r [] else lines_acc r (cur ++ [c])
  end.

(** The lines of a stream's contents: split at each newline, the last
    (possibly empty) segment included. *)
Definition lines_of (d : bytes) : list bytes := lines_acc d [].

Lemma lines_acc_spec d cur :
  no_nl cur ->
  join (lines_acc d cur) = cur ++ d /\ Forall no_nl (lines_acc d cur) /\ lines_acc d cur <> [].
Proof.
  revert cur. induction d as [|c r IH]; intros cur Hcur; simpl.
  - rewrite app_nil_r. split_and!; [done | by constructor | done].
  - destruct (byte_eqb c NL) eqn:E.
    + apply byte_eqb_true in E as ->.
      destruct (IH [] ltac:(constructor)) as (Hj & Hf & Hne).
      split_and!; [by rewrite join_cons_ne, Hj | by constructor | done].
    + apply byte_eqb_false in E.
      destruct (IH (cur ++ [c])) as (Hj & Hf & Hne); [by apply Forall_app; split; [| constructor] |].
      split_and!; [by rewrite Hj, <- app_assoc | done | done].
Qed.

Lemma file_is_after f :
  f_eof f = false -> f_err f = false -> f = after (f_fail f) (lines_of (f_data f)).
Proof.
  destruct f as [d fl eof err]; simpl; intros -> ->.
  destruct (lines_acc_spec d [] ltac:(constructor)) as (Hj & _ & Hne).
  unfold lines_of. destruct (lines_acc d []) as [|l r]; [done |].
  unfold after. by rewrite Hj.
Qed.

(** [getln] on a stream whose end-of-file or error indicator is set: no
    byte is read. *)
Lemma getln_flagged h w :
  f_eof (file_at w h) || f_err (file_at w h) = true ->
  getln h w = if f_err (file_at w h) then (Exit 1, add_err read_error_msg w) else (Ok None, w).
Proof.
  intros Hfl. unfold getln.
  rewrite (st_bind_ok (file_fuel h) _ w (S (length (f_data (file_at w h)))) w) by done.
  rewrite (st_bind_ok (getln_loop _ h []) _ w [] w)
    by (simpl; unfold st_bind, fgetc; by rewrite Hfl).
  unfold st_bind, ferror. by destruct (f_err (file_at w h)).
Qed.

(** [getnonwsln] itself, with its fuel, on a stream of lines. *)
Lemma getnonwsln_gen h w fl ls :
  valid h w -> Forall no_nl ls -> file_at w h = after fl ls ->
  getnonwsln h w =
    match first_text ls with
    | Some (l, r) =>
        if fl && bool_decide (r = [])
        then (Exit 1, add_err read_error_msg (set_file h (after true []) w))
        else (Ok (Some (l ++ [NUL])), set_file h (after fl r) w)
    | None =>
        if fl then (Exit 1, add_err read_error_msg (set_file h (after true []) w))
        else (Ok None, set_file h (after false []) w)
    end.
Proof.
  intros Hv Hls Hf. unfold getnonwsln.
  rewrite (st_bind_ok (file_fuel h) _ w (S (length (join ls))) w)
    by (unfold file_fuel; by rewrite Hf, f_data_after).
  apply getnonwsln_loop_gen; (done || lia).
Qed.

(** [getnonwsln] on a stream whose indicators are set reads nothing. *)
Lemma getnonwsln_flagged h w :
  f_eof (file_at w h) || f_err (file_at w h) = true ->
  getnonwsln h w = if f_err (file_at w h) then (Exit 1, add_err read_error_msg w) else (Ok None, w).
Proof.
  intros Hfl. unfold getnonwsln.
  rewrite (st_bind_ok (file_fuel h) _ w (S (length (f_data (file_at w h)))) w) by done.
  simpl. unfold st_bind at 1. rewrite getln_flagged by done.
  destruct (f_err (file_at w h)) eqn:Ee; [done |].
  rewrite bool_decide_false by done. unfold st_bind, feof.
  rewrite ?Ee, orb_false_r in Hfl. by rewrite Hfl.
Qed.

(** ** Properties of the reader *)

(** The classification the specification gives (section 4.2). *)
Definition classify (l : bytes) : line_type :=
  match l with
  | [] => LINE_TYPE_EMPTY
  | _ => match drop_while isspace l with
         | [] => LINE_TYPE_WS
         | c :: _ => if byte_eqb c HASH then LINE_TYPE_COMMENT else LINE_TYPE_TEXT
         end
  end.

Lemma lntype_loop_spec s :
  lntype_loop s = match drop_while isspace s with
                  | [] => LINE_TYPE_WS
                  | c :: _ => if byte_eqb c HASH then LINE_TYPE_COMMENT else LINE_TYPE_TEXT
                  end.
Proof. induction s as [|c s IH]; simpl; [done |]. by destruct (isspace c). Qed.

(** C11: the type [getlntype] gives the line [getln] returned for a
    NUL-free line [l] is the specification's: empty for the empty line
    (which [getln] returns as [NULL]), whitespace when every byte is
    blank, comment when the first non-blank byte is ['#'], text otherwise
    (spec P1). *)
Theorem getlntype_line l : nul_free l -> getlntype (line_buf l) = classify l.
Proof.
  intros Hn. destruct l as [|c l]; [done |]. unfold line_buf, getlntype, classify.
  change (cstr ((c :: l) ++ [NUL]) 0) with (cstr ([] ++ (c :: l) ++ [NUL]) 0).
  rewrite (cstr_word_end [] (c :: l) 0) by done. apply lntype_loop_spec.
Qed.

Lemma getlntype_line_witness : getlntype (line_buf (bs " 	  ")) = LINE_TYPE_WS.
Proof. rewrite getlntype_line; [reflexivity | apply (bool_decide_unpack _); vm_compute; constructor]. Defined.

(** C12: on a stream whose unread bytes are the line [l], a newline and
    more lines, [getln] returns [l] NUL-terminated ([NULL] when [l] is
    empty) and leaves the stream at the next line. *)
Theorem getln_next_line h w l r :
  valid h w -> no_nl l -> file_at w h = after false (l :: r) ->
  getln h w = (Ok (line_buf l), set_file h (after false r) w).
Proof. intros. by rewrite (getln_after_gen h w false l r). Qed.

Lemma getln_next_line_witness :
  getln STDIN (world1 (after false [bs "a=1"; bs "b=2"]))
  = (Ok (Some (bs "a=1" ++ [NUL])), set_file STDIN (after false [bs "b=2"]) (world1 (after false [bs "a=1"; bs "b=2"]))).
Proof.
  apply (getln_next_line STDIN _ (bs "a=1") [bs "b=2"]); [unfold valid, STDIN; simpl; lia | apply (bool_decide_unpack _); vm_compute; constructor | reflexivity].
Defined.

(** C13: when a read error follows the last line, [getln] reports it with
    [perror] and exits with status 1, even if that line was complete. *)
Theorem getln_read_error h w l :
  valid h w -> no_nl l -> file_at w h = after true [l] ->
  getln h w = (Exit 1, add_err read_error_msg (set_file h (after true []) w)).
Proof. intros. by rewrite (getln_after_gen h w true l []). Qed.

Lemma getln_read_error_witness :
  getln STDIN (world1 (after true [bs "k=v"]))
  = (Exit 1, add_err read_error_msg (set_file STDIN (after true []) (world1 (after true [bs "k=v"])))).
Proof.
  apply (getln_read_error STDIN _ (bs "k=v")); [unfold valid, STDIN; simpl; lia | apply (bool_decide_unpack _); vm_compute; constructor | reflexivity].
Defined.

(** C10: on a stream of lines, possibly followed by a read error,
    [getnonwsln] returns the first text line NUL-terminated and leaves the
    stream after it.  With no text line left it returns [NULL] at end of
    file.  When the read error is reached (the text line found is the last
    line, or there is no text line), it reports ["file read error"] with
    [perror] and exits with status 1, with the stream's error indicator
    set. *)
Theorem getnonwsln_first_text h w fl ls :
  valid h w -> Forall no_nl ls -> file_at w h = after fl ls ->
  getnonwsln h w =
    match first_text ls with
    | Some (l, r) =>
        if fl && bool_decide (r = [])
        then (Exit 1, add_err read_error_msg (set_file h (after true []) w))
        else (Ok (Some (l ++ [NUL])), set_file h (after fl r) w)
    | None =>
        if fl then (Exit 1, add_err read_error_msg (set_file h (after true []) w))
        else (Ok None, set_file h (after false []) w)
    end.
Proof. intros Hv Hls Hf. exact (getnonwsln_gen h w fl ls Hv Hls Hf). Qed.

Lemma getnonwsln_first_text_witness :
  getnonwsln STDIN (world1 (after true [bs "# note"; bs "k = v"]))
  = (Exit 1, add_err read_error_msg (set_file STDIN (after true []) (world1 (after true [bs "# note"; bs "k = v"])))).
Proof.
  rewrite (getnonwsln_first_text STDIN _ true [bs "# note"; bs "k = v"]);
    [reflexivity | unfold valid, STDIN; simpl; lia | apply (bool_decide_unpack _); vm_compute; constructor | reflexivity].
Defined.

(** C25: [getnonwsln] terminates on every stream: the fuel it computes
    from the unread bytes is never exhausted, whatever the contents, the
    indicators and a pending read error. *)
Theorem getnonwsln_terminates h w : valid h w -> fst (getnonwsln h w) <> NoFuel.
Proof.
  intros Hv.
  destruct (f_eof (file_at w h) || f_err (file_at w h)) eqn:Efl.
  - rewrite getnonwsln_flagged by done. by destruct (f_err (file_at w h)).
  - apply orb_false_iff in Efl as [He Hr].
    pose proof (file_is_after _ He Hr) as Hf.
    destruct (lines_acc_spec (f_data (file_at w h)) [] ltac:(constructor)) as (_ & Hls & _).
    rewrite (getnonwsln_gen h w (f_fail (file_at w h)) (lines_of (f_data (file_at w h)))) by done.
    destruct (first_text _) as [[l r]|], (f_fail (file_at w h)); simpl; try done;
      by destruct (bool_decide (r = [])).
Qed.

Lemma getnonwsln_terminates_witness :
  fst (getnonwsln STDIN (world1 (mk_file (bs "# c" ++ NL :: bs " ") true false false))) <> NoFuel.
Proof. apply getnonwsln_terminates. unfold valid, STDIN. simpl. lia. Defined.

(** ** Footprint of the reading functions

    They change the stream they read and write on stderr, nothing else:
    stdout and the table of streams are as they were. *)

Section ReadFootprint.
Context `{ReadInvariant T obs}.

Lemma file_fuel_preserves h : preserves obs (file_fuel h).
Proof. done. Qed.
#[local] Hint Resolve file_fuel_preserves : diffkv.

Lemma getln_loop_preserves fuel h ln : preserves obs (getln_loop fuel h ln).
Proof. revert ln. induction fuel; simpl; footprint. Qed.
#[local] Hint Resolve getln_loop_preserves : diffkv.

Lemma getln_preserves h : preserves obs (getln h).
Proof. unfold getln. footprint. Qed.
#[local] Hint Resolve getln_preserves : diffkv.

Lemma getnonwsln_loop_preserves fuel h : preserves obs (getnonwsln_loop fuel h).
Proof. induction fuel; simpl; footprint. Qed.
#[local] Hint Resolve getnonwsln_loop_preserves : diffkv.

Lemma getnonwsln_preserves h : preserves obs (getnonwsln h).
Proof. unfold getnonwsln. footprint. Qed.
End ReadFootprint.

#[export] Hint Resolve file_fuel_preserves getln_preserves getnonwsln_preserves : diffkv.
