(* ===== verification/Differ.v ===== *)
(** The comparison of the two loaded arrays: [kvs_find_key] and [diff],
    src/diffkv.c lines 172-208.  An array of [struct kv *] is [None] for a
    [NULL] array or [Some l] for a NULL-terminated array whose slots, in
    order, are [l] (the terminator is implicit); a slot is a live entry or
    the sentinel [KV_IGNORE].  [diff] runs in the state monad over the two
    arrays (which it overwrites) and stdout (which it appends to).

    [diff_spec] is the comparison the specification describes (section
    4.5): a multiset match of the first list against the second, where a
    matched entry is removed.  [diff_refines] shows what the code does in
    terms of it: the same lines in the same order up to the first key that
    has no match, where the code crashes. *)

From stdpp Require Import base list options.
From Stdlib Require Import Strings.Byte ZArith Lia.
From S2P Require Import Prelude CType.

Open Scope diffkv_scope.
#[local] Set Default Proof Using "Type*".

(** ** Data *)

(** [struct kv] (lines 9-12): the key and the value, as C strings. *)
Record kv := mk_kv { k : bytes; v : bytes }.

#[export] Instance kv_eq_dec : EqDecision kv.
Proof. solve_decision. Defined.

(** A slot of the array: a pointer to a live [struct kv], or [KV_IGNORE]
    (line 7). *)
Inductive slot := Live (e : kv) | KV_IGNORE.

#[export] Instance slot_eq_dec : EqDecision slot.
Proof. solve_decision. Defined.

Record dstate := mk_dstate { d1 : option (list slot); d2 : option (list slot); out : list bytes }.

(** The three [printf] formats of [diff]. *)
Definition fmt_only1 (key : bytes) : bytes := bs "< " ++ key ++ [NL].
Definition fmt_changed (key v1 v2 : bytes) : bytes :=
  bs "! " ++ key ++ bs "=" ++ v1 ++ bs " > " ++ v2 ++ [NL].
Definition fmt_only2 (key val : bytes) : bytes := bs "> " ++ key ++ bs "=" ++ val ++ [NL].

Definition printf (line : bytes) : St dstate unit :=
  st_modify (fun s => mk_dstate (d1 s) (d2 s) (out s ++ [line])).

(** ** [kvs_find_key] (lines 172-182) *)

(** The loop over the slots from index [i]: skip [KV_IGNORE], return the
    index of the first live slot whose key [strcmp]s equal. *)
Fixpoint find_from (l : list slot) (key : bytes) (i : nat) : option nat :=
  match l with
  | [] => None
  | KV_IGNORE :: r => find_from r key (S i)
  | Live e :: r => if Z.eqb (strcmp (k e) key) 0 then Some i else find_from r key (S i)
  end.

(** [kvs_find_key(kvs, key)]: [*kvs] on a [NULL] array is a NULL
    dereference. *)
Definition kvs_find_key {S} (a : option (list slot)) (key : bytes) : St S (option nat) :=
  match a with
  | None => st_crash NullDeref
  | Some l => st_ret (find_from l key 0)
  end.

(** ** [diff] (lines 184-208) *)

(** [( *p)->k] for a slot [p]: the sentinel is not a valid pointer. *)
Definition deref {S} (o : option slot) : St S kv :=
  match o with
  | Some (Live e) => st_ret e
  | Some KV_IGNORE => st_crash SentinelDeref
  | None => st_crash OutOfBounds
  end.

Definition set_d1 (i : nat) (x : slot) : St dstate unit :=
  st_modify (fun s => mk_dstate (fmap (fun l => <[i:=x]> l) (d1 s)) (d2 s) (out s)).
Definition set_d2 (i : nat) (x : slot) : St dstate unit :=
  st_modify (fun s => mk_dstate (d1 s) (fmap (fun l => <[i:=x]> l) (d2 s)) (out s)).

(** The body of the first loop (lines 192-200) for [kv1 = kvs1 + i]. *)
Definition diff_step (i : nat) : St dstate unit :=
  s <- st_get ;;
  e1 <- deref (d1 s ≫= fun l => l !! i) ;;
  m <- kvs_find_key (d2 s) (k e1) ;;
  (match m with
   | None => printf (fmt_only1 (k e1))
   | Some j =>
       e2 <- deref (d2 s ≫= fun l => l !! j) ;;
       if negb (Z.eqb (strcmp (v e1) (v e2)) 0)
       then printf (fmt_changed (k e1) (v e1) (v e2))
       else st_ret tt
   end) ;;
  set_d1 i KV_IGNORE ;;
  match m with
  | None => st_crash NullDeref
  | Some j => set_d2 j KV_IGNORE
  end.

(** The first loop (line 191) runs once per slot of [kvs1]: the slots are
    never removed, so the terminator is reached after [length l1] steps. *)
Fixpoint diff_loop1 (n i : nat) : St dstate unit :=
  match n with
  | 0 => st_ret tt
  | S n' => diff_step i ;; diff_loop1 n' (S i)
  end.

(** The second loop (lines 203-207): print the slots of [kvs2] that are not
    [KV_IGNORE]. *)
Fixpoint print_rest (l : list slot) : St dstate unit :=
  match l with
  | [] => st_ret tt
  | KV_IGNORE :: r => print_rest r
  | Live e :: r => printf (fmt_only2 (k e) (v e)) ;; print_rest r
  end.

Definition diff_loop2 : St dstate unit :=
  s <- st_get ;;
  match d2 s with
  | None => st_crash NullDeref
  | Some l2 => print_rest l2
  end.

(** [diff(kvs1, kvs2)]: [*kv1] on a [NULL] [kvs1] is a NULL dereference. *)
Definition diff : St dstate unit :=
  s <- st_get ;;
  match d1 s with
  | None => st_crash NullDeref
  | Some l1 => diff_loop1 (length l1) 0 ;; diff_loop2
  end.

(** The array [kvs_from_file] returns for a list of entries: [NULL] when
    there is none (lines 146-147). *)
Definition to_array (l : list kv) : option (list slot) :=
  match l with [] => None | _ => Some (map Live l) end.

(** Running [diff] on two loaded arrays: what it returns and what it
    printed. *)
Definition arrays (first second : list kv) : dstate :=
  mk_dstate (to_array first) (to_array second) [].

Definition observe (p : res unit * dstate) : res unit * list bytes := (fst p, out (snd p)).

Definition run_diff (first second : list kv) : res unit * list bytes :=
  observe (diff (arrays first second)).

(** ** The specification's comparison *)

Inductive dline :=
  | OnlyInFirst (key : bytes)
  | Changed (key v1 v2 : bytes)
  | OnlyInSecond (key val : bytes).

#[export] Instance dline_eq_dec : EqDecision dline.
Proof. solve_decision. Defined.

Definition render (d : dline) : bytes :=
  match d with
  | OnlyInFirst key => fmt_only1 key
  | Changed key a b => fmt_changed key a b
  | OnlyInSecond key val => fmt_only2 key val
  end.

(** Remove the first entry with key [key]. *)
Fixpoint take_first (key : bytes) (l : list kv) : option (kv * list kv) :=
  match l with
  | [] => None
  | e :: r =>
      if bool_decide (k e = key) then Some (e, r)
      else option_map (fun '(e', r') => (e', e :: r')) (take_first key r)
  end.

Fixpoint diff_spec (first second : list kv) : list dline :=
  match first with
  | [] => map (fun e => OnlyInSecond (k e) (v e)) second
  | e :: rest =>
      match take_first (k e) second with
      | None => OnlyInFirst (k e) :: diff_spec rest second
      | Some (e2, second') =>
          (if bool_decide (v e = v e2) then [] else [Changed (k e) (v e) (v e2)])
            ++ diff_spec rest second'
      end
  end.

(** What a run that prints the lines [ds] one by one shows, when printing
    an [OnlyInFirst] line is followed by the NULL dereference of line 199. *)
Fixpoint emit (ds : list dline) : res unit * list bytes :=
  match ds with
  | [] => (Ok tt, [])
  | OnlyInFirst key :: _ => (Crash NullDeref, [fmt_only1 key])
  | d :: ds' => let '(r, o) := emit ds' in (r, render d :: o)
  end.

Definition kvb (key val : String.string) : kv := mk_kv (bs key) (bs val).
Arguments kvb (key val)%_string_scope.

Example run_diff_P6 : run_diff [kvb "a" "1"] [kvb "a" "2"] = (Ok tt, [bs "! a=1 > 2" ++ [NL]]).
Proof. reflexivity. Qed.
Example run_diff_P6_eq : run_diff [kvb "a" "1"] [kvb "a" "1"] = (Ok tt, []).
Proof. reflexivity. Qed.
Example run_diff_P5_first : run_diff [kvb "a" "1"] [kvb "b" "1"] = (Crash NullDeref, [bs "< a" ++ [NL]]).
Proof. reflexivity. Qed.
Example run_diff_P7 : run_diff [kvb "a" "1"; kvb "a" "2"] [kvb "a" "1"] = (Crash NullDeref, [bs "< a" ++ [NL]]).
Proof. reflexivity. Qed.
Example run_diff_second : run_diff [kvb "a" "1"] [kvb "a" "1"; kvb "b" "2"] = (Ok tt, [bs "> b=2" ++ [NL]]).
Proof. reflexivity. Qed.
Example run_diff_P5_second : run_diff [] [kvb "a" "1"] = (Crash NullDeref, []).
Proof. reflexivity. Qed.

(** ** [diff] refines [diff_spec] *)

(** The entries of an array that are still live, in order. *)
Fixpoint live (l : list slot) : list kv :=
  match l with
  | [] => []
  | Live e :: r => e :: live r
  | KV_IGNORE :: r => live r
  end.

(** Entries loaded from a file hold C strings. *)
Definition wf_kv (e : kv) : Prop := nul_free (k e) /\ nul_free (v e).
Definition wf_slot (x : slot) : Prop :=
  match x with Live e => wf_kv e | KV_IGNORE => True end.

#[export] Instance wf_kv_dec e : Decision (wf_kv e).
Proof. unfold wf_kv. apply _. Defined.
#[export] Instance wf_slot_dec x : Decision (wf_slot x).
Proof. destruct x; simpl; apply _. Defined.

Section Refinement.

Lemma strcmp_kv_eqb a b :
  nul_free a -> nul_free b -> Z.eqb (strcmp a b) 0 = bool_decide (a = b).
Proof.
  intros Ha Hb. destruct (Z.eqb_spec (strcmp a b) 0) as [H|H];
    rewrite strcmp_eq_0 in H by done.
  - by rewrite bool_decide_true.
  - by rewrite bool_decide_false.
Qed.

(** The lookup of [kvs_find_key] and the sentinel write that follows it
    remove from the live entries exactly what [take_first] removes. *)
Lemma find_from_take_first (l : list slot) key i :
  Forall wf_slot l -> nul_free key ->
  match take_first key (live l) with
  | None => find_from l key i = None
  | Some (e, rest) =>
      exists j, find_from l key i = Some (i + j) /\ l !! j = Some (Live e) /\
                live (<[j := KV_IGNORE]> l) = rest
  end.
Proof.
  intros Hl Hkey. revert i. induction Hl as [|x l Hx Hl IH]; intros i; [done |].
  destruct x as [e|]; simpl.
  - destruct Hx as [Hk _]. rewrite strcmp_kv_eqb by done.
    destruct (bool_decide (k e = key)).
    + exists 0. rewrite Nat.add_0_r. done.
    + specialize (IH (S i)). destruct (take_first key (live l)) as [[e' rest]|]; simpl; [|done].
      destruct IH as (j & Hf & Hj & Hr). exists (S j). simpl.
      rewrite Hf, Hr. split; [f_equal; lia | done].
  - specialize (IH (S i)). destruct (take_first key (live l)) as [[e' rest]|]; [|done].
    destruct IH as (j & Hf & Hj & Hr). exists (S j). simpl. rewrite Hf. split; [f_equal; lia | done].
Qed.

Lemma print_rest_out l s :
  print_rest l s = (Ok tt, mk_dstate (d1 s) (d2 s)
                             (out s ++ map (render ∘ (fun e => OnlyInSecond (k e) (v e))) (live l))).
Proof.
  revert s. induction l as [|[e|] l IH]; intros [a b o]; simpl.
  - by rewrite app_nil_r.
  - unfold st_bind, printf, st_modify. rewrite IH. simpl. by rewrite <- app_assoc.
  - apply IH.
Qed.

Lemma emit_only2 (l : list kv) :
  emit (map (fun e => OnlyInSecond (k e) (v e)) l)
  = (Ok tt, map (render ∘ (fun e => OnlyInSecond (k e) (v e))) l).
Proof. induction l as [|e l IH]; simpl in *; [done |]. by rewrite IH. Qed.

Lemma emit_changed ds key a b :
  emit (Changed key a b :: ds) = (fst (emit ds), fmt_changed key a b :: snd (emit ds)).
Proof. simpl. by destruct (emit ds). Qed.

Lemma replicate_ignore_step i e (r : list slot) :
  <[i := KV_IGNORE]> (replicate i KV_IGNORE ++ Live e :: r) = replicate (S i) KV_IGNORE ++ r.
Proof.
  rewrite insert_at_app by (by rewrite length_replicate).
  rewrite replicate_S_end, <- app_assoc. reflexivity.
Qed.

Lemma replicate_lookup i e (r : list slot) :
  (replicate i KV_IGNORE ++ Live e :: r) !! i = Some (Live e).
Proof. apply list_lookup_middle. by rewrite length_replicate. Qed.

Lemma Forall_wf_slot_insert l j :
  Forall wf_slot l -> Forall wf_slot (<[j := KV_IGNORE]> l).
Proof. intros. by apply Forall_insert. Qed.

Lemma Forall_wf_slot_live (l : list kv) : Forall wf_kv l -> Forall wf_slot (map Live l).
Proof. intros H. by apply Forall_map. Qed.

Lemma live_fmap (l : list kv) : live (map Live l) = l.
Proof. induction l; simpl; congruence. Qed.

(** One iteration of the first loop when the key is found at [j]. *)
Lemma diff_step_found i e rest l2 o j e2 :
  find_from l2 (k e) 0 = Some j -> l2 !! j = Some (Live e2) ->
  diff_step i (mk_dstate (Some (replicate i KV_IGNORE ++ Live e :: map Live rest)) (Some l2) o)
  = (Ok tt, mk_dstate (Some (replicate (S i) KV_IGNORE ++ map Live rest))
                      (Some (<[j := KV_IGNORE]> l2))
                      (o ++ if Z.eqb (strcmp (v e) (v e2)) 0 then []
                            else [fmt_changed (k e) (v e) (v e2)])).
Proof.
  intros Hf Hj. unfold diff_step, st_bind, st_get. simpl.
  rewrite replicate_lookup. simpl. rewrite Hf. simpl. rewrite Hj. simpl.
  destruct (Z.eqb (strcmp (v e) (v e2)) 0); simpl;
    unfold set_d1, set_d2, printf, st_modify; simpl;
    rewrite replicate_ignore_step; rewrite ?app_nil_r; reflexivity.
Qed.

(** One iteration of the first loop when the key is not found: the
    [< key] line is printed, then [free( *match)] dereferences NULL. *)
Lemma diff_step_missing i e rest l2 o :
  find_from l2 (k e) 0 = None ->
  observe (diff_step i (mk_dstate (Some (replicate i KV_IGNORE ++ Live e :: map Live rest)) (Some l2) o))
  = (Crash NullDeref, o ++ [fmt_only1 (k e)]).
Proof.
  intros Hf. unfold diff_step, st_bind, st_get. simpl.
  rewrite replicate_lookup. simpl. rewrite Hf. reflexivity.
Qed.

(** The invariant of the first loop: after [i] iterations the first [i]
    slots of [kvs1] are [KV_IGNORE], the live slots of [kvs2] are what
    [diff_spec] has not consumed, and stdout holds what it has emitted. *)
Lemma diff_loops_spec (rest : list kv) (l2 : list slot) i o :
  Forall wf_kv rest -> Forall wf_slot l2 ->
  observe ((diff_loop1 (length rest) i ;; diff_loop2)
             (mk_dstate (Some (replicate i KV_IGNORE ++ map Live rest)) (Some l2) o))
  = (fst (emit (diff_spec rest (live l2))), o ++ snd (emit (diff_spec rest (live l2)))).
Proof.
  revert l2 i o. induction rest as [|e rest IH]; intros l2 i o Hr Hl2.
  - unfold observe. simpl. unfold diff_loop2, st_bind, st_get. simpl.
    rewrite print_rest_out, emit_only2. reflexivity.
  - apply Forall_cons in Hr as [[Hk Hv] Hr].
    simpl length. simpl diff_loop1. change (map Live (e :: rest)) with (Live e :: map Live rest).
    rewrite st_bind_assoc. simpl diff_spec.
    pose proof (find_from_take_first l2 (k e) 0 Hl2 Hk) as Hft.
    destruct (take_first (k e) (live l2)) as [[e2 second']|].
    + destruct Hft as (j & Hf & Hj & Hrest).
      assert (Hv2 : nul_free (v e2)).
      { pose proof (proj1 (Forall_lookup _ _) Hl2 j _ Hj) as [_ ?]. done. }
      erewrite st_bind_ok by (by apply diff_step_found).
      rewrite <- Hrest, strcmp_kv_eqb by done.
      rewrite IH by (done || by apply Forall_wf_slot_insert).
      destruct (bool_decide (v e = v e2)); cbn [app]; [by rewrite app_nil_r |].
      rewrite emit_changed. simpl. by rewrite <- app_assoc.
    + pose proof (diff_step_missing i e rest l2 o Hft) as Hm. unfold observe in Hm |- *.
      destruct (diff_step i _) as [r s] eqn:E. simpl in Hm. injection Hm as -> Ho.
      unfold st_bind. rewrite E. simpl. by rewrite Ho.
Qed.
End Refinement.

(** [diff] on two loaded arrays emits the specifications lines. *)
Lemma diff_emits_spec first second :
  Forall wf_kv first -> Forall wf_kv second -> first <> [] -> second <> [] ->
  run_diff first second = emit (diff_spec first second).
Proof.
  intros H1 H2 Hne1 Hne2.
  destruct first as [|e first]; [done |]. destruct second as [|e2 second]; [done |].
  change (observe ((diff_loop1 (length (map Live (e :: first))) 0 ;; diff_loop2)
            (mk_dstate (Some (map Live (e :: first))) (Some (map Live (e2 :: second))) []))
          = emit (diff_spec (e :: first) (e2 :: second))).
  pose proof (diff_loops_spec (e :: first) (map Live (e2 :: second)) 0 []) as H.
  rewrite live_fmap, app_nil_l in H. simpl replicate in H. rewrite app_nil_l in H.
  rewrite length_map, H by (done || by apply Forall_wf_slot_live).
  by destruct (emit _).
Qed.

(** C2: on two non-empty arrays of loaded entries, [diff] prints the lines
    of the specification's multiset comparison [diff_spec], in its order,
    and stops exactly where [emit] stops: normally after the last line, or
    with a NULL dereference right after the first [< key] line. *)
Theorem diff_refines first second :
  Forall wf_kv first -> Forall wf_kv second -> first <> [] -> second <> [] ->
  run_diff first second = emit (diff_spec first second).
Proof. exact (diff_emits_spec first second). Qed.

Lemma diff_refines_witness :
  run_diff [kvb "a" "1"; kvb "b" "2"] [kvb "b" "3"; kvb "a" "1"]
  = emit (diff_spec [kvb "a" "1"; kvb "b" "2"] [kvb "b" "3"; kvb "a" "1"]).
Proof.
  apply diff_refines; try discriminate; apply (bool_decide_unpack _); vm_compute; constructor.
Defined.

(** ** When [diff] crashes *)

(** How often a key occurs among the entries. *)
Definition count_key (key : bytes) (l : list kv) : nat :=
  length (filter (fun e => k e = key) l).

Definition is_only1 (d : dline) : bool :=
  match d with OnlyInFirst _ => true | _ => false end.

Section Crash.

Lemma emit_no_only1 ds :
  Forall (fun d => is_only1 d = false) ds -> emit ds = (Ok tt, map render ds).
Proof.
  induction 1 as [|[] ds Hd _ IH]; simpl in *; try done; by rewrite IH.
Qed.

Lemma emit_only1 ds :
  Exists (fun d => is_only1 d = true) ds -> fst (emit ds) = Crash NullDeref.
Proof.
  induction 1 as [[] ds Hd|[] ds _ IH]; simpl in *; try done;
    by destruct (emit ds).
Qed.

Lemma count_key_cons key e l :
  count_key key (e :: l) = (if bool_decide (k e = key) then 1 else 0) + count_key key l.
Proof.
  unfold count_key. rewrite filter_cons.
  destruct (decide (k e = key)); [rewrite bool_decide_true | rewrite bool_decide_false]; done.
Qed.

Lemma take_first_none key l : take_first key l = None -> count_key key l = 0.
Proof.
  induction l as [|e l IH]; simpl; [done |]. rewrite count_key_cons.
  destruct (bool_decide (k e = key)); [done |].
  destruct (take_first key l) as [[]|]; [done |]. intros _. by rewrite IH.
Qed.

Lemma take_first_some key l e l' x :
  take_first key l = Some (e, l') ->
  count_key x l = (if bool_decide (key = x) then 1 else 0) + count_key x l'.
Proof.
  revert l'. induction l as [|e0 l IH]; intros l'; simpl; [done |].
  destruct (bool_decide (k e0 = key)) eqn:E.
  - intros [= -> ->]. apply bool_decide_eq_true in E. subst key.
    by rewrite count_key_cons.
  - destruct (take_first key l) as [[e1 l1]|] eqn:Et; [| done].
    intros [= -> <-]. rewrite !count_key_cons, (IH l1) by done. lia.
Qed.

(** Every key is matched when the first file has no more occurrences of
    any key than the second. *)
Lemma spec_no_only1 first second :
  (forall key, count_key key first <= count_key key second) ->
  Forall (fun d => is_only1 d = false) (diff_spec first second).
Proof.
  revert second. induction first as [|e first IH]; intros second Hc; simpl.
  - by apply Forall_map, Forall_true.
  - destruct (take_first (k e) second) as [[e2 second']|] eqn:Et.
    + apply Forall_app; split; [by destruct (bool_decide _); repeat constructor |].
      apply IH. intros key. specialize (Hc key).
      rewrite count_key_cons, (take_first_some _ _ _ _ key Et) in Hc.
      destruct (bool_decide (k e = key)); lia.
    + exfalso. specialize (Hc (k e)). rewrite count_key_cons, (take_first_none (k e) second) in Hc by done.
      rewrite bool_decide_true in Hc by done. lia.
Qed.

Lemma spec_only1 first second key :
  count_key key second < count_key key first ->
  Exists (fun d => is_only1 d = true) (diff_spec first second).
Proof.
  revert second. induction first as [|e first IH]; intros second Hc; simpl.
  - unfold count_key in Hc. simpl in Hc. lia.
  - destruct (take_first (k e) second) as [[e2 second']|] eqn:Et.
    + apply Exists_app. right. apply IH.
      rewrite count_key_cons, (take_first_some _ _ _ _ key Et) in Hc.
      destruct (bool_decide (k e = key)); lia.
    + by left.
Qed.
End Crash.

(** C18: when every key occurs in the second file at least as often as in
    the first, [diff] finishes normally and prints exactly the lines of the
    specification's comparison. *)
Theorem diff_all_matched first second :
  Forall wf_kv first -> Forall wf_kv second -> first <> [] -> second <> [] ->
  (forall key, count_key key first <= count_key key second) ->
  run_diff first second = (Ok tt, map render (diff_spec first second)).
Proof.
  intros. rewrite diff_emits_spec by done. by apply emit_no_only1, spec_no_only1.
Qed.

Lemma diff_all_matched_witness :
  run_diff [kvb "a" "1"; kvb "b" "2"] [kvb "b" "3"; kvb "a" "1"; kvb "c" "4"]
  = (Ok tt, [bs "! b=2 > 3" ++ [NL]; bs "> c=4" ++ [NL]]).
Proof.
  apply (diff_all_matched [kvb "a" "1"; kvb "b" "2"] [kvb "b" "3"; kvb "a" "1"; kvb "c" "4"]);
    try discriminate; try (apply (bool_decide_unpack _); vm_compute; constructor).
  intros key. rewrite !count_key_cons. unfold count_key. simpl.
  repeat case_bool_decide; simpl; congruence || lia.
Defined.

(** C5: when some key occurs in the first file more often than in the
    second (a key only in the first file, for one), [diff] does not finish:
    after printing the [< key] line it dereferences the NULL [match] at
    line 199.  The specification's [< key] output is never completed. *)
Theorem diff_crash_unmatched first second key :
  Forall wf_kv first -> Forall wf_kv second -> first <> [] -> second <> [] ->
  count_key key second < count_key key first ->
  fst (run_diff first second) = Crash NullDeref.
Proof.
  intros. rewrite diff_emits_spec by done. by eapply emit_only1, spec_only1.
Qed.

Lemma diff_crash_unmatched_witness :
  fst (run_diff [kvb "a" "1"; kvb "a" "2"] [kvb "a" "1"]) = Crash NullDeref.
Proof.
  apply (diff_crash_unmatched _ _ (bs "a")); try discriminate;
    apply (bool_decide_unpack _); vm_compute; constructor.
Defined.

(** C6: when either file has no entry, its array is [NULL] and [diff]
    dereferences it before printing anything. *)
Theorem diff_null_array first second :
  first = [] \/ second = [] -> run_diff first second = (Crash NullDeref, []).
Proof.
  intros [-> | ->]; [reflexivity |].
  destruct first as [|e first]; reflexivity.
Qed.

Lemma diff_null_array_witness : run_diff [kvb "a" "1"] [] = (Crash NullDeref, []).
Proof. apply diff_null_array. by right. Defined.

Lemma diff_spec_self l : diff_spec l l = [].
Proof.
  induction l as [|e l IH]; simpl; [done |].
  rewrite !bool_decide_true by done. simpl. exact IH.
Qed.

(** C19: comparing a non-empty file with itself prints nothing and
    finishes normally. *)
Theorem diff_self l :
  Forall wf_kv l -> l <> [] -> run_diff l l = (Ok tt, []).
Proof. intros. rewrite diff_emits_spec, diff_spec_self by done. reflexivity. Qed.

Lemma diff_self_witness : run_diff [kvb "x" "1"; kvb "y" "2"] [kvb "x" "1"; kvb "y" "2"] = (Ok tt, []).
Proof. apply diff_self; [apply (bool_decide_unpack _); vm_compute; constructor | discriminate]. Defined.

(** ** [kvs_find_key] *)

(** [j] is the first live slot of [l] whose key is [key]. *)
Definition first_live_with (l : list slot) (key : bytes) (j : nat) : Prop :=
  exists e, l !! j = Some (Live e) /\ k e = key /\
    forall j' e', j' < j -> l !! j' = Some (Live e') -> k e' <> key.

Lemma find_from_cases l key i :
  Forall wf_slot l -> nul_free key ->
  (exists j, find_from l key i = Some (i + j) /\ first_live_with l key j) \/
  (find_from l key i = None /\ forall j e, l !! j = Some (Live e) -> k e <> key).
Proof.
  intros Hl Hkey. revert i. induction Hl as [|x l Hx Hl IH]; intros i; [by right |].
  assert (Hshift : (exists j0, find_from l key (S i) = Some (S i + j0) /\ first_live_with l key j0) ->
            (forall e, x = Live e -> k e <> key) ->
            exists j, find_from l key (S i) = Some (i + j) /\ first_live_with (x :: l) key j).
  { intros (j & Hf & e & Hj & Hk & Hmin) Hx0. exists (S j). rewrite Hf.
    split; [f_equal; lia |]. exists e. split_and!; [done | done |].
    intros [|j'] e' Hlt Hj'; [simpl in Hj'; injection Hj' as Hj'; by apply Hx0 |].
    apply (Hmin j'); [lia | done]. }
  destruct x as [e|]; simpl.
  - destruct Hx as [Hk _]. rewrite strcmp_kv_eqb by done.
    destruct (bool_decide (k e = key)) eqn:E.
    + apply bool_decide_eq_true in E. left. exists 0. rewrite Nat.add_0_r.
      split; [done |]. exists e. split_and!; [done | done | intros; lia].
    + apply bool_decide_eq_false in E.
      destruct (IH (S i)) as [Hs | [Hn Hall]].
      * left. apply Hshift; [done |]. by intros e' [= <-].
      * right. split; [done |]. intros [|j] e' Hj; [simpl in Hj; by injection Hj as <- |]. by apply (Hall j).
  - destruct (IH (S i)) as [Hs | [Hn Hall]].
    + left. by apply Hshift.
    + right. split; [done |]. intros [|j] e' Hj; [done |]. by apply (Hall j).
Qed.

(** C20: [kvs_find_key] on an array of loaded entries returns the index of
    the first slot that is not [KV_IGNORE] and whose key is [key], or
    [NULL] when there is none; it changes nothing. *)
Theorem kvs_find_key_first (l : list slot) key (s : dstate) :
  Forall wf_slot l -> nul_free key ->
  (exists j, kvs_find_key (Some l) key s = (Ok (Some j), s) /\ first_live_with l key j) \/
  (kvs_find_key (Some l) key s = (Ok None, s) /\ forall j e, l !! j = Some (Live e) -> k e <> key).
Proof.
  intros Hl Hk. unfold kvs_find_key, st_ret.
  destruct (find_from_cases l key 0 Hl Hk) as [(j & -> & Hj) | [-> Hn]].
  - left. by exists j.
  - by right.
Qed.

Lemma kvs_find_key_first_witness :
  kvs_find_key (Some [KV_IGNORE; Live (kvb "b" "1"); Live (kvb "a" "2"); Live (kvb "a" "3")]) (bs "a")
    (arrays [] []) = (Ok (Some 2), arrays [] []).
Proof.
  destruct (kvs_find_key_first [KV_IGNORE; Live (kvb "b" "1"); Live (kvb "a" "2"); Live (kvb "a" "3")]
              (bs "a") (arrays [] [])) as [(j & H & _) | [H _]];
    [apply (bool_decide_unpack _); vm_compute; constructor | apply (bool_decide_unpack _); vm_compute; constructor | |];
    vm_compute in H |- *; congruence.
Defined.

(** ** Outcomes of [diff]

    [diff] calls no [exit] and has no fuel: its only outcomes are a return
    and a crash.  So its caller's exit status is never set by [diff]. *)

Section DiffOutcome.
Context (o : outcome) (Hok : o <> OOk) (Hcr : o <> OCrash).

#[local] Hint Resolve never_crash never_ret never_modify never_get : diffkv.

Lemma kvs_find_key_never a key : never (S:=dstate) o (kvs_find_key a key).
Proof. unfold kvs_find_key. footprint. Qed.

Lemma deref_never x : never (S:=dstate) o (deref x).
Proof. unfold deref. footprint. Qed.
#[local] Hint Resolve kvs_find_key_never deref_never : diffkv.

Lemma diff_step_never i : never o (diff_step i).
Proof. unfold diff_step, printf, set_d1, set_d2. footprint. Qed.
#[local] Hint Resolve diff_step_never : diffkv.

Lemma diff_loop1_never n i : never o (diff_loop1 n i).
Proof. revert i. induction n; simpl; footprint. Qed.

Lemma print_rest_never l : never o (print_rest l).
Proof. induction l as [|[] l IH]; simpl; unfold printf; footprint. Qed.
#[local] Hint Resolve diff_loop1_never print_rest_never : diffkv.

Lemma diff_never : never o diff.
Proof. unfold diff, diff_loop2. footprint. Qed.
End DiffOutcome.
