(* ===== verification/Loader.v ===== *)
(** Loading one file: [kvs_from_file], src/diffkv.c lines 85-153, and
    [file_from_arg], lines 155-170.  [kvs_from_file] takes text lines from
    [getnonwsln] until there is none, splits each with the parser of
    [Parser] (a missing ['='] is fatal, with the line on stderr), and
    returns the entries as an array, [NULL] when there is none.
    [load_text] is what the specification says a file loads to, and
    [kvs_from_file_spec] shows the code computes it. *)

From stdpp Require Import base list options.
From Stdlib Require Import Strings.Byte ZArith Lia.
From S2P Require Import Prelude CType Stdio Parser Reader Differ.

Open Scope diffkv_scope.
#[local] Set Default Proof Using "Type*".

Definition DQ : byte := x22.

(** Line 122: [diffkv: missing '=' in "<line>"]. *)
Definition missing_eq_msg (ln : bytes) : bytes :=
  bs "diffkv: missing '=' in " ++ [DQ] ++ ln ++ [DQ; NL].

(** The [for (;;)] loop of lines 91-145.  The array and the [struct kv]
    are allocated before the line is split; allocation is not modelled. *)
Fixpoint kvs_loop (fuel : nat) (h : nat) (acc : list kv) : M (list kv) :=
  match fuel with
  | 0 => st_nofuel
  | S fuel' =>
      ln <- getnonwsln h ;;
      match ln with
      | None => st_ret acc
      | Some buf =>
          match kv_parse buf with
          | PEntry key val => kvs_loop fuel' h (acc ++ [mk_kv key val])
          | PMissingEq => err_line (missing_eq_msg (cstr buf 0)) ;; st_exit 1
          | POverread => st_crash OutOfBounds
          end
      end
  end.

(** Lines 146-152: [NULL] for no entry, else the NULL-terminated array. *)
Definition kvs_from_file (h : nat) : M (option (list slot)) :=
  n <- file_fuel h ;;
  es <- kvs_loop n h [] ;;
  st_ret (to_array es).

(** [file_from_arg]: ["-"] is stdin; a file that cannot be opened is
    fatal, with [perror(arg)]. *)
Definition file_from_arg (arg : bytes) : M nat :=
  if Z.eqb (strcmp arg (bs "-")) 0 then st_ret STDIN
  else
    o <- fopen arg ;;
    match o with
    | None => perror arg ;; st_exit 1
    | Some h => st_ret h
    end.

(** ** What a file loads to *)

Inductive load_res := LOk (es : list kv) | LMissing (l : bytes) | LOverread.

(** The entries of the text lines, or the first text line that does not
    split. *)
Fixpoint load_text (ls : list bytes) : load_res :=
  match ls with
  | [] => LOk []
  | l :: r =>
      if is_text l then
        match kv_spec l with
        | PEntry key val =>
            match load_text r with LOk es => LOk (mk_kv key val :: es) | e => e end
        | PMissingEq => LMissing l
        | POverread => LOverread
        end
      else load_text r
  end.

Example kvs_from_file_ex :
  fst (kvs_from_file STDIN (world1 (after false [bs "x=1"; bs "# comment"; bs "y = 2 "; bs ""])))
  = Ok (Some [Live (kvb "x" "1"); Live (kvb "y" "2")]).
Proof. reflexivity. Qed.
Example kvs_from_file_missing :
  kvs_from_file STDIN (world1 (after false [bs "x=1"; bs "oops "; bs "z=3"]))
  = (Exit 1, add_err (missing_eq_msg (bs "oops ")) (world1 (after false [bs "z=3"]))).
Proof. reflexivity. Qed.

(** ** [kvs_from_file] computes [load_text] *)

Section LoadSpec.

Lemma first_text_split ls l r :
  first_text ls = Some (l, r) -> exists pre, ls = pre ++ l :: r /\ is_text l = true /\
    Forall (fun x => is_text x = false) pre.
Proof.
  revert l r. induction ls as [|x ls IH]; intros l r; simpl; [done |].
  destruct (is_text x) eqn:E.
  - intros [= -> ->]. by exists [].
  - intros H. destruct (IH l r H) as (pre & -> & Ht & Hpre). exists (x :: pre).
    split_and!; [done | done | by constructor].
Qed.

Lemma load_text_skip pre r :
  Forall (fun x => is_text x = false) pre -> load_text (pre ++ r) = load_text r.
Proof. induction 1 as [|x pre Hx _ IH]; simpl; [done |]. by rewrite Hx. Qed.

Lemma first_text_none_load ls : first_text ls = None -> load_text ls = LOk [].
Proof. induction ls as [|x ls IH]; simpl; [done |]. by destruct (is_text x). Qed.

Lemma length_join_cons_gen x r :
  length (join (x :: r)) = length x + (if bool_decide (r = []) then 0 else S (length (join r))).
Proof. destruct r as [|y r]; simpl; [lia |]. rewrite length_app. simpl. lia. Qed.

Lemma length_join_app_cons pre l r :
  is_text l = true -> length (join r) < length (join (pre ++ l :: r)).
Proof.
  intros Ht. apply is_text_nonempty in Ht. induction pre as [|x pre IH].
  - change ([] ++ l :: r) with (l :: r).
    rewrite length_join_cons_gen. destruct l; [done |]. simpl.
    destruct (bool_decide (r = [])) eqn:E; [apply bool_decide_eq_true in E as ->; simpl |]; lia.
  - change ((x :: pre) ++ l :: r) with (x :: (pre ++ l :: r)).
    rewrite length_join_cons_gen, bool_decide_false by (by destruct pre). lia.
Qed.

(** One turn of the loop of [kvs_from_file] on a stream of lines. *)
Lemma kvs_loop_step fuel h w ls acc :
  valid h w -> Forall no_nl ls -> file_at w h = after false ls ->
  kvs_loop (S fuel) h acc w =
    match first_text ls with
    | Some (l, r) =>
        match kv_parse (l ++ [NUL]) with
        | PEntry key val => kvs_loop fuel h (acc ++ [mk_kv key val]) (set_file h (after false r) w)
        | PMissingEq => (Exit 1, add_err (missing_eq_msg (cstr (l ++ [NUL]) 0)) (set_file h (after false r) w))
        | POverread => (Crash OutOfBounds, set_file h (after false r) w)
        end
    | None => (Ok acc, set_file h (after false []) w)
    end.
Proof.
  intros Hv Hls Hf. simpl kvs_loop. unfold st_bind at 1. rewrite (getnonwsln_gen h w false ls) by done.
  destruct (first_text ls) as [[l r]|]; [| done]. simpl. by destruct (kv_parse (l ++ [NUL])).
Qed.

(** The loop of [kvs_from_file] over a stream of NUL-free lines. *)
Lemma kvs_loop_spec fuel h w ls acc :
  valid h w -> Forall no_nl ls -> Forall nul_free ls -> file_at w h = after false ls ->
  length (join ls) < fuel ->
  match load_text ls with
  | LOk es => kvs_loop fuel h acc w = (Ok (acc ++ es), set_file h (after false []) w)
  | LMissing l => exists r,
      kvs_loop fuel h acc w = (Exit 1, add_err (missing_eq_msg l) (set_file h (after false r) w))
  | LOverread => exists r, kvs_loop fuel h acc w = (Crash OutOfBounds, set_file h (after false r) w)
  end.
Proof.
  revert ls acc w. induction fuel as [|fuel IH]; intros ls acc w Hv Hnl Hnul Hf Hlen; [lia |].
  rewrite (kvs_loop_step fuel h w ls acc) by done.
  destruct (first_text ls) as [[l r]|] eqn:Eft.
  - destruct (first_text_split ls l r Eft) as (pre & -> & Ht & Hpre).
    pose proof (length_join_app_cons pre l r Ht) as Hshort.
    apply Forall_app in Hnl as [_ [Hl Hr]%Forall_cons]. apply Forall_app in Hnul as [_ [Hln Hrn]%Forall_cons].
    rewrite load_text_skip by done. simpl load_text. rewrite Ht.
    rewrite kv_parse_refines by done.
    destruct (kv_spec l) as [key val| |].
    + specialize (IH r (acc ++ [mk_kv key val]) (set_file h (after false r) w)).
      destruct (load_text r) as [es|bad|];
        [rewrite IH | destruct IH as [r' ->] | destruct IH as [r' ->]];
        try (by apply valid_set); try done; try (by rewrite file_at_set); try lia.
      * by rewrite set_file_set, <- app_assoc.
      * exists r'. by rewrite set_file_set.
      * exists r'. by rewrite set_file_set.
    + exists r. change (cstr (l ++ [NUL]) 0) with (cstr ([] ++ l ++ [NUL]) 0).
      by rewrite (cstr_word_end [] l 0).
    + by exists r.
  - rewrite first_text_none_load by done. by rewrite app_nil_r.
Qed.

(** The entries of a stream that loads without error. *)
Lemma kvs_from_file_ok h w ls es :
  valid h w -> Forall no_nl ls -> Forall nul_free ls -> file_at w h = after false ls ->
  load_text ls = LOk es ->
  kvs_from_file h w = (Ok (to_array es), set_file h (after false []) w).
Proof.
  intros Hv Hnl Hnul Hf Hl. unfold kvs_from_file.
  rewrite (st_bind_ok (file_fuel h) _ w (S (length (join ls))) w)
    by (unfold file_fuel; by rewrite Hf, f_data_after).
  pose proof (kvs_loop_spec (S (length (join ls))) h w ls [] Hv Hnl Hnul Hf ltac:(lia)) as H.
  rewrite Hl in H. by rewrite (st_bind_ok _ _ _ _ _ H).
Qed.

(** The first text line without ['='] of a stream is reported and is
    fatal. *)
Lemma kvs_from_file_bad_line h w ls l :
  valid h w -> Forall no_nl ls -> Forall nul_free ls -> file_at w h = after false ls ->
  load_text ls = LMissing l ->
  exists r, kvs_from_file h w = (Exit 1, add_err (missing_eq_msg l) (set_file h (after false r) w)).
Proof.
  intros Hv Hnl Hnul Hf Hl. unfold kvs_from_file.
  rewrite (st_bind_ok (file_fuel h) _ w (S (length (join ls))) w)
    by (unfold file_fuel; by rewrite Hf, f_data_after).
  pose proof (kvs_loop_spec (S (length (join ls))) h w ls [] Hv Hnl Hnul Hf ltac:(lia)) as H.
  rewrite Hl in H. destruct H as [r H]. exists r. unfold st_bind. by rewrite H.
Qed.

End LoadSpec.

(** C4: on a stream whose unread contents are NUL-free lines,
    [kvs_from_file] returns the array of the entries of the text lines, in
    order ([NULL] when there is none) and leaves the stream at end of
    file; at the first text line without ['='] it writes the line on
    stderr and exits with status 1; at a text line that is one bare token
    it reads past the line buffer. *)
Theorem kvs_from_file_spec h w ls :
  valid h w -> Forall no_nl ls -> Forall nul_free ls -> file_at w h = after false ls ->
  match load_text ls with
  | LOk es => kvs_from_file h w = (Ok (to_array es), set_file h (after false []) w)
  | LMissing l => exists r,
      kvs_from_file h w = (Exit 1, add_err (missing_eq_msg l) (set_file h (after false r) w))
  | LOverread => exists r, kvs_from_file h w = (Crash OutOfBounds, set_file h (after false r) w)
  end.
Proof.
  intros Hv Hnl Hnul Hf. unfold kvs_from_file.
  rewrite (st_bind_ok (file_fuel h) _ w (S (length (join ls))) w)
    by (unfold file_fuel; by rewrite Hf, f_data_after).
  pose proof (kvs_loop_spec (S (length (join ls))) h w ls [] Hv Hnl Hnul Hf ltac:(lia)) as H.
  destruct (load_text ls) eqn:Hl; [| destruct H as [r H] | destruct H as [r H]];
    [| exists r | exists r]; by rewrite (st_bind_ok _ _ _ _ _ H) || (unfold st_bind; rewrite H).
Qed.

Lemma kvs_from_file_spec_witness :
  kvs_from_file STDIN (world1 (after false [bs "x=1"; bs "  # note"; bs "y = 2 "]))
  = (Ok (to_array [kvb "x" "1"; kvb "y" "2"]),
     set_file STDIN (after false []) (world1 (after false [bs "x=1"; bs "  # note"; bs "y = 2 "]))).
Proof.
  pose proof (kvs_from_file_spec STDIN (world1 (after false [bs "x=1"; bs "  # note"; bs "y = 2 "]))
    [bs "x=1"; bs "  # note"; bs "y = 2 "]) as H.
  vm_compute in H. apply H; [lia | | | reflexivity];
    apply (bool_decide_unpack _); vm_compute; constructor.
Defined.

(** C21: a file with no text line (only blank lines and comments) loads to
    a [NULL] array, not to an empty array: the specification's empty
    sequence is the NULL that [diff] then dereferences. *)
Theorem kvs_from_file_no_text h w ls :
  valid h w -> Forall no_nl ls -> file_at w h = after false ls ->
  Forall (fun l => is_text l = false) ls ->
  kvs_from_file h w = (Ok None, set_file h (after false []) w).
Proof.
  intros Hv Hnl Hf Hnt. unfold kvs_from_file.
  rewrite (st_bind_ok (file_fuel h) _ w (S (length (join ls))) w)
    by (unfold file_fuel; by rewrite Hf, f_data_after).
  assert (Hft : first_text ls = None).
  { clear -Hnt. induction Hnt as [|l r Hl _ IH]; simpl; [done |]. by rewrite Hl. }
  rewrite (st_bind_ok _ _ w [] (set_file h (after false []) w)); [done |].
  rewrite (kvs_loop_step _ h w ls []) by done. by rewrite Hft.
Qed.

Lemma kvs_from_file_no_text_witness :
  kvs_from_file STDIN (world1 (after false [bs "# only"; bs "  "; bs ""]))
  = (Ok None, set_file STDIN (after false []) (world1 (after false [bs "# only"; bs "  "; bs ""]))).
Proof.
  apply (kvs_from_file_no_text STDIN _ [bs "# only"; bs "  "; bs ""]);
    [unfold valid, STDIN; simpl; lia | | reflexivity | ];
    apply (bool_decide_unpack _); vm_compute; constructor.
Defined.

(** ** Termination *)

Lemma kvs_loop_terminates fuel h w fl ls acc :
  valid h w -> Forall no_nl ls -> file_at w h = after fl ls -> length (join ls) < fuel ->
  fst (kvs_loop fuel h acc w) <> NoFuel.
Proof.
  revert ls acc w. induction fuel as [|fuel IH]; intros ls acc w Hv Hnl Hf Hlen; [lia |].
  simpl kvs_loop. unfold st_bind at 1. rewrite (getnonwsln_gen h w fl ls) by done.
  destruct (first_text ls) as [[l r]|] eqn:Eft; [| by destruct fl].
  destruct (fl && bool_decide (r = [])); [done |]. simpl.
  destruct (first_text_split ls l r Eft) as (pre & -> & Ht & _).
  apply Forall_app in Hnl as [_ [_ Hr]%Forall_cons].
  destruct (kv_parse (l ++ [NUL])); [| done | done].
  apply (IH r); [by apply valid_set | done | by rewrite file_at_set |].
  pose proof (length_join_app_cons pre l r Ht). lia.
Qed.

Lemma kvs_loop_flagged fuel h w acc :
  f_eof (file_at w h) || f_err (file_at w h) = true ->
  kvs_loop (S fuel) h acc w =
    if f_err (file_at w h) then (Exit 1, add_err read_error_msg w) else (Ok acc, w).
Proof.
  intros Hfl. simpl kvs_loop. unfold st_bind at 1. rewrite getnonwsln_flagged by done.
  by destruct (f_err (file_at w h)).
Qed.

(** On a stream at end of file, [kvs_from_file] reads nothing and returns
    [NULL]. *)
Lemma kvs_from_file_eof h w :
  f_eof (file_at w h) = true -> f_err (file_at w h) = false ->
  kvs_from_file h w = (Ok None, w).
Proof.
  intros He Hr. unfold kvs_from_file.
  rewrite (st_bind_ok (file_fuel h) _ w (S (length (f_data (file_at w h)))) w) by done.
  unfold st_bind. rewrite kvs_loop_flagged by (by rewrite He). by rewrite Hr.
Qed.

(** [kvs_from_file] terminates on every stream: whatever its
    contents, its indicators and a pending read error, the fuel computed
    from the unread bytes is never exhausted. *)
Theorem kvs_from_file_terminates h w : valid h w -> fst (kvs_from_file h w) <> NoFuel.
Proof.
  intros Hv. unfold kvs_from_file.
  rewrite (st_bind_ok (file_fuel h) _ w (S (length (f_data (file_at w h)))) w) by done.
  destruct (f_eof (file_at w h) || f_err (file_at w h)) eqn:Efl.
  - unfold st_bind. rewrite kvs_loop_flagged by done.
    by destruct (f_err (file_at w h)).
  - apply orb_false_iff in Efl as [He Hr].
    pose proof (file_is_after _ He Hr) as Hf.
    destruct (lines_acc_spec (f_data (file_at w h)) [] ltac:(constructor)) as (Hj & Hls & _).
    pose proof (kvs_loop_terminates (S (length (f_data (file_at w h)))) h w (f_fail (file_at w h))
                  (lines_of (f_data (file_at w h))) [] Hv Hls Hf) as H.
    unfold lines_of in H. rewrite Hj in H. specialize (H ltac:(simpl; lia)).
    unfold st_bind. destruct (kvs_loop _ h [] w) as [[] s]; simpl in *; done.
Qed.

(** C22: [file_from_arg] maps ["-"] to stdin without opening anything,
    opens any other name as a new stream, and when the name cannot be
    opened reports it with [perror] and exits with status 1. *)
Theorem file_from_arg_spec arg w :
  nul_free arg ->
  file_from_arg arg w =
    if bool_decide (arg = bs "-") then (Ok STDIN, w)
    else match fs_lookup (w_fs w) arg with
         | None => (Exit 1, add_err (perror_msg arg) w)
         | Some e => (Ok (length (w_files w)),
                      mk_world (w_files w ++ [mk_file (fe_data e) (fe_fail e) false false])
                               (w_fs w) (w_out w) (w_err w))
         end.
Proof.
  intros Ha. unfold file_from_arg.
  assert (Hd : nul_free (bs "-")) by (apply (bool_decide_unpack _); vm_compute; constructor).
  destruct (Z.eqb_spec (strcmp arg (bs "-")) 0) as [E|E];
    rewrite strcmp_eq_0 in E by done.
  - by rewrite bool_decide_true.
  - rewrite bool_decide_false by done. unfold st_bind, fopen.
    by destruct (fs_lookup (w_fs w) arg).
Qed.

Lemma file_from_arg_spec_witness :
  file_from_arg (bs "missing.kv") (world1 (after false []))
  = (Exit 1, add_err (perror_msg (bs "missing.kv")) (world1 (after false []))).
Proof.
  rewrite file_from_arg_spec; [reflexivity |].
  apply (bool_decide_unpack _); vm_compute; constructor.
Defined.

(** ** Footprint and totality of loading *)

Lemma dash_nul_free : nul_free (bs "-").
Proof. apply (bool_decide_unpack _). vm_compute. constructor. Qed.

(** A name other than ["-"] is opened. *)
Lemma file_from_arg_named arg :
  nul_free arg -> arg <> bs "-" ->
  file_from_arg arg =
    (o <- fopen arg ;; match o with None => perror arg ;; st_exit 1 | Some h => st_ret h end).
Proof.
  intros Ha Hne. unfold file_from_arg.
  pose proof dash_nul_free as Hd.
  destruct (Z.eqb_spec (strcmp arg (bs "-")) 0) as [E|E]; [| done].
  by rewrite strcmp_eq_0 in E.
Qed.

Section LoadFootprint.
Context `{ReadInvariant T obs}.

Lemma kvs_loop_preserves fuel h acc : preserves obs (kvs_loop fuel h acc).
Proof. revert acc. induction fuel; simpl; footprint. Qed.
#[local] Hint Resolve kvs_loop_preserves : diffkv.

Lemma kvs_from_file_preserves h : preserves obs (kvs_from_file h).
Proof. unfold kvs_from_file. footprint. Qed.
End LoadFootprint.

Lemma file_from_arg_preserves_out arg : preserves w_out (file_from_arg arg).
Proof. unfold file_from_arg. footprint. Qed.

#[export] Hint Resolve kvs_from_file_preserves file_from_arg_preserves_out : diffkv.

(** From a world where stdin is open, [file_from_arg] returns an open
    stream and keeps stdin open. *)
Lemma file_from_arg_total arg :
  total (valid STDIN) (file_from_arg arg) (fun h w => valid h w /\ valid STDIN w).
Proof.
  intros w Hw. unfold file_from_arg. destruct (Z.eqb _ _); [done |].
  unfold st_bind, fopen. destruct (fs_lookup (w_fs w) arg); [| done].
  unfold valid in *. simpl. rewrite length_app. simpl. lia.
Qed.

(** [kvs_from_file] on an open stream terminates and keeps stdin open. *)
Lemma kvs_from_file_total h :
  total (fun w => valid h w /\ valid STDIN w) (kvs_from_file h) (fun _ w => valid STDIN w).
Proof.
  intros w [Hv Hs].
  pose proof (kvs_from_file_terminates h w Hv) as Ht.
  pose proof (kvs_from_file_preserves (obs := fun w => length (w_files w)) h w) as Hl.
  unfold valid in *. destruct (kvs_from_file h w) as [[] w']; simpl in *; [lia | done..].
Qed.
