(* ===== verification/Main.v ===== *)
(** The program: [main], src/diffkv.c lines 210-235.  [main] checks the
    argument count, loads the first file completely, then opens and loads
    the second, then runs [diff], whose stdout is the program's.  Every
    error is fatal and happens before [diff] starts, so no diff line is
    ever printed by a run that exits with an error. *)

From stdpp Require Import base list options.
From Stdlib Require Import Strings.Byte ZArith Lia.
From S2P Require Import Prelude CType Stdio Parser Reader Differ Loader.

Open Scope diffkv_scope.

Definition msg_missing_args : bytes := bs "diffkv: missing file argument(s)" ++ [NL].
Definition msg_extra_args (a : bytes) : bytes :=
  bs "diffkv: extra file argument(s): " ++ [DQ] ++ a ++ [DQ; NL].
Definition msg_usage : bytes := bs "usage: diffkv file1 file2" ++ [NL].

(** [diff(kvs1, kvs2)] in the program's world: the arrays are its own
    state, its [printf]s go to the program's stdout. *)
Definition run_diff_in (a1 a2 : option (list slot)) : M unit := fun w =>
  let '(r, s) := diff (mk_dstate a1 a2 []) in
  (r, mk_world (w_files w) (w_fs w) (w_out w ++ out s) (w_err w)).

(** The [usage:] label, lines 232-234. *)
Definition usage : M Z := err_line msg_usage ;; st_ret 1%Z.

(** [main(argc, argv)] with [argv] the whole argument vector.  After
    [argc--; argv++], an [argc] of 0 becomes -1, which passes both tests of
    line 218, and line 223 reads [argv[2]] past the end of the vector. *)
Definition main (argv : list bytes) : M Z :=
  match argv with
  | [] => st_crash OutOfBounds
  | _ :: args =>
      match args with
      | [] | [_] => err_line msg_missing_args ;; usage
      | [a1; a2] =>
          h1 <- file_from_arg a1 ;;
          kvs1 <- kvs_from_file h1 ;;
          h2 <- file_from_arg a2 ;;
          kvs2 <- kvs_from_file h2 ;;
          run_diff_in kvs1 kvs2 ;;
          st_ret 0%Z
      | _ :: _ :: a3 :: _ => err_line (msg_extra_args a3) ;; usage
      end
  end.

(** A world with stdin and a file system of named files. *)
Definition boot (stdin : bytes) (fs : list fentry) : world :=
  mk_world [mk_file stdin false false false] fs [] [].

Definition file1 : bytes := bs "x=1" ++ NL :: bs "# comment" ++ NL :: bs "y = 2 " ++ [NL].
Definition file2 : bytes := bs "x=1" ++ NL :: bs "z=3" ++ [NL].

(** The end-to-end scenario of the specification: [y] is only in the
    first file, so [< y] is printed and the run then crashes. *)
Example main_scenario :
  let '(r, w) := main [bs "diffkv"; bs "a.kv"; bs "b.kv"]
                   (boot [] [mk_fentry (bs "a.kv") file1 false; mk_fentry (bs "b.kv") file2 false]) in
  (r, w_out w, w_err w) = (Crash NullDeref, [bs "< y" ++ [NL]], []).
Proof. vm_compute. reflexivity. Qed.

Example main_changed :
  let '(r, w) := main [bs "diffkv"; bs "a.kv"; bs "b.kv"]
                   (boot [] [mk_fentry (bs "a.kv") (bs "k=1") false; mk_fentry (bs "b.kv") (bs "k=2" ++ NL :: bs "n=0") false]) in
  (r, w_out w, w_err w) = (Ok 0%Z, [bs "! k=1 > 2" ++ [NL]; bs "> n=0" ++ [NL]], []).
Proof. vm_compute. reflexivity. Qed.

(** The status [main] returns after [diff]: [return 0] once [diff]
    returns. *)
Definition status_of (r : res unit) : res Z :=
  match r with Ok _ => Ok 0%Z | Exit c => Exit c | Crash f => Crash f | NoFuel => NoFuel end.

(** ** Loading a named file *)

Lemma lines_acc_nul_free d cur :
  nul_free cur -> nul_free d -> Forall nul_free (lines_acc d cur).
Proof.
  revert cur. induction d as [|c r IH]; intros cur Hc Hd; simpl; [by constructor |].
  apply Forall_cons in Hd as [Hcn Hr].
  destruct (byte_eqb c NL); [constructor; [done | apply IH; [constructor | done]] |].
  apply IH; [apply Forall_app; by split; [| constructor] | done].
Qed.

Lemma lines_of_nul_free d : nul_free d -> Forall nul_free (lines_of d).
Proof. intros Hd. apply lines_acc_nul_free; [constructor | done]. Qed.

Lemma lines_of_no_nl d : Forall no_nl (lines_of d).
Proof. by destruct (lines_acc_spec d [] ltac:(constructor)) as (_ & ? & _). Qed.

Lemma open_named arg w e :
  nul_free arg -> arg <> bs "-" -> fs_lookup (w_fs w) arg = Some e ->
  file_from_arg arg w =
    (Ok (length (w_files w)),
     mk_world (w_files w ++ [mk_file (fe_data e) (fe_fail e) false false]) (w_fs w) (w_out w) (w_err w)).
Proof.
  intros Ha Hne He. rewrite file_from_arg_named by done.
  unfold st_bind, fopen. by rewrite He.
Qed.

(** The stream [fopen] adds for a file without read error. *)
Lemma opened_file_at w e :
  fe_fail e = false ->
  file_at (mk_world (w_files w ++ [mk_file (fe_data e) (fe_fail e) false false]) (w_fs w) (w_out w) (w_err w))
          (length (w_files w)) = after false (lines_of (fe_data e)).
Proof.
  intros Hf. unfold file_at. simpl. rewrite lookup_app_r, Nat.sub_diag by lia. simpl.
  rewrite Hf. by apply (file_is_after (mk_file (fe_data e) false false false)).
Qed.

Lemma opened_valid w f :
  valid (length (w_files w)) (mk_world (w_files w ++ [f]) (w_fs w) (w_out w) (w_err w)).
Proof. unfold valid. simpl. rewrite length_app. simpl. lia. Qed.

(** Opening a named file and loading it: the new stream is left at end of
    file, nothing else changes. *)
Lemma load_named {A} n e es w (k : option (list slot) -> M A) :
  nul_free n -> n <> bs "-" -> fs_lookup (w_fs w) n = Some e ->
  fe_fail e = false -> nul_free (fe_data e) -> load_text (lines_of (fe_data e)) = LOk es ->
  st_bind (file_from_arg n) (fun h => st_bind (kvs_from_file h) k) w =
    k (to_array es) (mk_world (w_files w ++ [after false []]) (w_fs w) (w_out w) (w_err w)).
Proof.
  intros Hn Hne He Hf Hd Hl.
  rewrite (st_bind_ok _ _ w _ _ (open_named n w e Hn Hne He)).
  rewrite (st_bind_ok _ _ _ _ _ (kvs_from_file_ok _ _ _ es (opened_valid w _)
            (lines_of_no_nl _) (lines_of_nul_free _ Hd) (opened_file_at w e Hf) Hl)).
  unfold set_file. simpl. by rewrite insert_at_app.
Qed.

(** ** Outcomes of [diff] in the program *)

Lemma run_diff_in_never o a1 a2 : o <> OOk -> o <> OCrash -> never o (run_diff_in a1 a2).
Proof.
  intros Hok Hcr w. unfold run_diff_in.
  pose proof (diff_never o Hok Hcr (mk_dstate a1 a2 [])) as H.
  by destruct (diff _) as [r s].
Qed.

(** [diff] with a [NULL] second array crashes in its first
    [kvs_find_key], or at once when the first is [NULL] too. *)
Lemma diff_second_null es :
  diff (mk_dstate (to_array es) None []) = (Crash NullDeref, mk_dstate (to_array es) None []).
Proof. by destruct es. Qed.

Lemma file_from_arg_dash w : file_from_arg (bs "-") w = (Ok STDIN, w).
Proof. reflexivity. Qed.

(** ** The program's behaviour *)

(** C1: end to end.  Run as [diffkv file1 file2] on two named files
    without NUL bytes or read errors that load without error, the program
    prints exactly what [diff] prints on the two loaded arrays, writes
    nothing on stderr, and returns what [diff] leads to: status 0, or the
    crash of [diff].  With [diff_refines] this is the whole program's
    output. *)
Theorem main_runs_diff p n1 n2 e1 e2 es1 es2 w :
  nul_free n1 -> n1 <> bs "-" -> fs_lookup (w_fs w) n1 = Some e1 ->
  fe_fail e1 = false -> nul_free (fe_data e1) -> load_text (lines_of (fe_data e1)) = LOk es1 ->
  nul_free n2 -> n2 <> bs "-" -> fs_lookup (w_fs w) n2 = Some e2 ->
  fe_fail e2 = false -> nul_free (fe_data e2) -> load_text (lines_of (fe_data e2)) = LOk es2 ->
  fst (main [p; n1; n2] w) = status_of (fst (run_diff es1 es2)) /\
  w_out (snd (main [p; n1; n2] w)) = w_out w ++ snd (run_diff es1 es2) /\
  w_err (snd (main [p; n1; n2] w)) = w_err w.
Proof.
  intros. unfold main.
  rewrite (load_named n1 e1 es1 w) by done.
  rewrite (load_named n2 e2 es2) by done.
  unfold st_bind at 1, run_diff_in, run_diff, observe, arrays.
  by destruct (diff _) as [[] s].
Qed.

Lemma main_runs_diff_witness :
  let w := boot [] [mk_fentry (bs "a.kv") (bs "k=1") false;
                    mk_fentry (bs "b.kv") (bs "k=2" ++ NL :: bs "n=0") false] in
  fst (main [bs "diffkv"; bs "a.kv"; bs "b.kv"] w)
    = status_of (fst (run_diff [kvb "k" "1"] [kvb "k" "2"; kvb "n" "0"])) /\
  w_out (snd (main [bs "diffkv"; bs "a.kv"; bs "b.kv"] w))
    = w_out w ++ snd (run_diff [kvb "k" "1"] [kvb "k" "2"; kvb "n" "0"]) /\
  w_err (snd (main [bs "diffkv"; bs "a.kv"; bs "b.kv"] w)) = w_err w.
Proof.
  intros w.
  apply (main_runs_diff _ _ _ (mk_fentry (bs "a.kv") (bs "k=1") false)
           (mk_fentry (bs "b.kv") (bs "k=2" ++ NL :: bs "n=0") false));
    try reflexivity; try (apply (bool_decide_unpack _); vm_compute; constructor);
    discriminate.
Defined.

(** C8: every run that exits with a status (a missing file, a read error,
    a text line without ['=']) exits before [diff] prints anything: its
    stdout is what it was before the run. *)
Theorem main_exit_quiet argv w c :
  fst (main argv w) = Exit c -> w_out (snd (main argv w)) = w_out w.
Proof.
  revert w c. change (exit_quiet w_out (main argv)).
  destruct argv as [|p [|a1 [|a2 [|a3 r]]]]; unfold main, usage;
    try solve [apply preserves_exit_quiet; footprint].
  repeat (apply exit_quiet_bind; [solve [footprint] | intro]).
  apply never_exit_quiet, never_bind; [apply run_diff_in_never; discriminate | footprint].
Qed.

Lemma main_exit_quiet_witness :
  fst (main [bs "diffkv"; bs "nope"; bs "b.kv"] (boot [] [])) = Exit 1 /\
  w_out (snd (main [bs "diffkv"; bs "nope"; bs "b.kv"] (boot [] []))) = w_out (boot [] []).
Proof.
  split; [reflexivity |]. apply (main_exit_quiet _ _ 1). reflexivity.
Defined.

(** C9: the program terminates: from any world where stdin is open, no
    loop of [main] runs out of fuel, whatever the arguments and the
    contents of the files. *)
Theorem main_terminates argv w : valid STDIN w -> fst (main argv w) <> NoFuel.
Proof.
  intros Hw. apply (total_no_nofuel (valid STDIN) _ (fun _ _ => True) w); [| done].
  destruct argv as [|p [|a1 [|a2 [|a3 r]]]]; unfold main, usage;
    try solve [apply never_total; footprint].
  eapply total_bind; [apply file_from_arg_total | intros h1].
  eapply total_bind; [apply kvs_from_file_total | intros kvs1].
  eapply total_bind; [apply file_from_arg_total | intros h2].
  eapply total_bind; [apply kvs_from_file_total | intros kvs2].
  apply never_total, never_bind; [apply run_diff_in_never; discriminate | footprint].
Qed.

Lemma main_terminates_witness :
  valid STDIN (boot (bs "a=1") []) /\
  fst (main [bs "diffkv"; bs "-"; bs "-"] (boot (bs "a=1") [])) <> NoFuel.
Proof.
  split; [unfold valid, STDIN; simpl; lia |].
  apply main_terminates. unfold valid, STDIN; simpl; lia.
Defined.

(** C23: with other than two file arguments nothing is opened or printed on
    stdout: one or no argument prints the missing-argument message and the
    usage on stderr and returns 1; three or more print the first extra
    argument in quotes and the usage and return 1.  With an empty argument
    vector ([argc] = 0) [argc - 1] is -1, both tests fail and the
    program reads [argv[3]] past the end of the vector. *)
Theorem main_bad_argc argv w :
  length argv <> 3 ->
  main argv w =
    match argv with
    | [] => (Crash OutOfBounds, w)
    | _ :: _ :: _ :: a3 :: _ => (Ok 1%Z, add_err msg_usage (add_err (msg_extra_args a3) w))
    | _ => (Ok 1%Z, add_err msg_usage (add_err msg_missing_args w))
    end.
Proof. intros Hn. by destruct argv as [|p [|a1 [|a2 [|a3 r]]]]. Qed.

Lemma main_bad_argc_witness :
  main [bs "diffkv"; bs "a"; bs "b"; bs "c"] (boot [] [])
  = (Ok 1%Z, add_err msg_usage (add_err (msg_extra_args (bs "c")) (boot [] []))).
Proof. apply (main_bad_argc [bs "diffkv"; bs "a"; bs "b"; bs "c"]). simpl. lia. Defined.

(** C24: [diffkv - -]: the first load reads stdin to its end, the second
    finds it at end of file and returns [NULL], and [diff] then
    dereferences [NULL] before printing anything.  Whatever stdin holds,
    a run that gets past loading crashes with no output. *)
Theorem main_stdin_twice p w ls es :
  valid STDIN w -> Forall no_nl ls -> Forall nul_free ls -> file_at w STDIN = after false ls ->
  load_text ls = LOk es ->
  main [p; bs "-"; bs "-"] w = (Crash NullDeref, set_file STDIN (after false []) w).
Proof.
  intros Hv Hnl Hnul Hf Hl. unfold main.
  rewrite (st_bind_ok _ _ w _ _ (file_from_arg_dash w)).
  rewrite (st_bind_ok _ _ w _ _ (kvs_from_file_ok STDIN w ls es Hv Hnl Hnul Hf Hl)).
  set (w1 := set_file STDIN _ w).
  assert (Hat : file_at w1 STDIN = after false []) by (apply file_at_set; exact Hv).
  rewrite (st_bind_ok _ _ w1 _ _ (file_from_arg_dash w1)).
  rewrite (st_bind_ok _ _ w1 _ _ (kvs_from_file_eof STDIN w1 ltac:(by rewrite Hat)
                                    ltac:(by rewrite Hat))).
  unfold st_bind at 1, run_diff_in. rewrite diff_second_null.
  unfold w1, set_file. simpl. by rewrite app_nil_r.
Qed.

Lemma main_stdin_twice_witness :
  main [bs "diffkv"; bs "-"; bs "-"] (world1 (after false [bs "a=1"]))
  = (Crash NullDeref, set_file STDIN (after false []) (world1 (after false [bs "a=1"]))).
Proof.
  apply (main_stdin_twice _ _ [bs "a=1"] [kvb "a" "1"]);
    try reflexivity; try (unfold valid, STDIN; simpl; lia);
    apply (bool_decide_unpack _); vm_compute; constructor.
Defined.

(** C26: the files are loaded in order, the first completely before the
    second is opened: when the first file has a text line without ['='],
    the program reports that line and exits with status 1 without opening
    the second file, whatever it is (even a name that does not exist), and
    without printing on stdout. *)
Theorem main_first_file_error p n1 n2 e1 l w :
  nul_free n1 -> n1 <> bs "-" -> fs_lookup (w_fs w) n1 = Some e1 ->
  fe_fail e1 = false -> nul_free (fe_data e1) -> load_text (lines_of (fe_data e1)) = LMissing l ->
  exists r, main [p; n1; n2] w =
    (Exit 1, add_err (missing_eq_msg l)
               (mk_world (w_files w ++ [after false r]) (w_fs w) (w_out w) (w_err w))).
Proof.
  intros Hn Hne He Hf Hd Hl. unfold main.
  rewrite (st_bind_ok _ _ w _ _ (open_named n1 w e1 Hn Hne He)).
  destruct (kvs_from_file_bad_line _ _ _ l (opened_valid w _)
              (lines_of_no_nl _) (lines_of_nul_free _ Hd) (opened_file_at w e1 Hf) Hl) as [r Hr].
  exists r. rewrite (st_bind_exit _ _ _ _ _ Hr).
  unfold set_file. simpl. by rewrite insert_at_app.
Qed.

Lemma main_first_file_error_witness :
  exists r, main [bs "diffkv"; bs "a.kv"; bs "missing.kv"] (boot [] [mk_fentry (bs "a.kv") (bs "k=1" ++ NL :: bs "oops x") false]) =
    (Exit 1, add_err (missing_eq_msg (bs "oops x"))
               (mk_world (w_files (boot [] []) ++ [after false r]) [mk_fentry (bs "a.kv") (bs "k=1" ++ NL :: bs "oops x") false] [] [])).
Proof.
  apply (main_first_file_error _ _ _ (mk_fentry (bs "a.kv") (bs "k=1" ++ NL :: bs "oops x") false));
    try reflexivity; try (apply (bool_decide_unpack _); vm_compute; constructor); discriminate.
Defined.
